(** * Pod port-forward backend ([app.py]): model and verified properties

    The backend keeps a module-level dictionary [active_forwards] of running
    [kubectl port-forward] children, guarded by [forward_lock], and exposes
    four HTTP endpoints: [health], [forward], [stop_forward] and [status].

    The embedding is a state-passing one.  Everything the handlers touch is
    gathered in a [world]: the dictionary, the operating system's process
    table, the signals sent so far, a logical clock, the sleeping timeout
    threads and the log.  What the program cannot decide by itself is an
    explicit input: the identifier drawn by [uuid.uuid4], the salted string
    hash of the interpreter, the builtin [int], and the fate of the child
    during the one-second observation window.  Each request runs as one
    atomic step, which is what [forward_lock] grants for the accesses to the
    dictionary. *)

From stdpp Require Import gmap strings list fin_maps.
From Stdlib Require Import ZArith Lia Ascii DecimalString.

Local Open Scope Z_scope.

(** ** Data *)

(** One value of [active_forwards]: the dictionary literal built by
    [forward].  [process] holds what [start_port_forward] returned, a handle
    ([Some pid]) or [None]. *)
Record info := {
  process : option nat;
  namespace : string;
  pod : string;
  pod_port : Z;
  local_port : Z;
  started_at : Z
}.

(** A child process as the operating system sees it.  [stubborn] children
    do not exit within five seconds of a termination signal. *)
Record proc := {
  cmd : list string;
  running : bool;
  stderr_text : string;
  stubborn : bool
}.

Inductive signal := SIGTERM | SIGKILL.

#[global] Instance signal_eq_dec : EqDecision signal.
Proof. solve_decision. Defined.

(** What happens to [subprocess.Popen(cmd, ...)] and to the child while the
    caller sleeps for one second. *)
Inductive launch_outcome :=
| PopenRaises (reason : string)
| ExitsEarly (diagnostic : string)
| Survives (ignores_sigterm : bool).

(** The calls to [logger]. *)
Inductive log_event :=
| LogUnauthenticated
| LogLaunching (argv : list string)
| LogLaunchError (detail : string)
| LogLaunched (pod_name : string) (pod_port local_port : Z)
| LogStopped (session_id : string)
| LogExpired (session_id : string)
| LogForwardError (detail : string).

#[global] Instance log_event_eq_dec : EqDecision log_event.
Proof. solve_decision. Defined.

Inductive level := INFO | WARNING | ERROR.

Record world := {
  active_forwards : gmap string info;
  procs : list proc;
  signals : list (nat * signal);
  now : Z;
  timers : list (Z * string);
  log : list log_event
}.

Definition init_world : world :=
  {| active_forwards := ∅; procs := []; signals := []; now := 0;
     timers := []; log := [] |}.

(** The part of a Flask request that the handlers read. *)
Record request := {
  authorization : option string;
  args : list (string * string)
}.

(** Keyword arguments handed to [render_template_string(HTML_TEMPLATE, ...)];
    the page is a function of them. *)
Module Tpl.
Record ctx := {
  pod_name : string;
  namespace : string;
  port : Z;
  local_port : Z;
  status : string;
  error : option string;
  session_id : string
}.
End Tpl.

(** One element of the list returned by [status]. *)
Module View.
Record entry := {
  session_id : string;
  namespace : string;
  pod : string;
  pod_port : Z;
  local_port : Z;
  active : bool;
  started_at : Z
}.
End View.

Inductive body :=
| Json (obj : list (string * string))
| JsonForwards (active_forwards : list View.entry)
| Html (ctx : Tpl.ctx).

Definition response : Type := body * Z.

(** ** Python helpers *)

Definition str_of_int (z : Z) : string := NilEmpty.string_of_int (Z.to_int z).

(** Truth value of a string, and of the result of [dict.get]. *)
Definition truthy_str (s : string) : bool := negb (String.eqb s EmptyString).

Definition truthy (o : option string) : bool :=
  match o with
  | Some s => truthy_str s
  | None => false
  end.

(** [request.args.get(key)]: the first value given for [key]. *)
Fixpoint assoc_get (key : string) (l : list (string * string)) : option string :=
  match l with
  | [] => None
  | (k, v) :: l' => if String.eqb k key then Some v else assoc_get key l'
  end.

Definition args_get (key : string) (req : request) : option string :=
  assoc_get key (args req).

(** ** A state monad over [world] *)

Definition M (A : Type) : Type := world → A * world.

Definition ret {A} (a : A) : M A := λ w, (a, w).

Definition bind {A B} (c : M A) (k : A → M B) : M B :=
  λ w, let '(a, w') := c w in k a w'.

Notation "x <- c ;; k" := (bind c (λ x, k))
  (at level 100, c at next level, right associativity).
Notation "c ;; k" := (bind c (λ _, k))
  (at level 100, right associativity).

Definition logger (e : log_event) : M unit :=
  λ w, (tt, {| active_forwards := active_forwards w; procs := procs w;
               signals := signals w; now := now w; timers := timers w;
               log := log w ++ [e] |}).

Definition time_time : M Z := λ w, (now w, w).

Definition set_procs (ps : list proc) (w : world) : world :=
  {| active_forwards := active_forwards w; procs := ps;
     signals := signals w; now := now w; timers := timers w; log := log w |}.

Definition set_active_forwards (m : gmap string info) (w : world) : world :=
  {| active_forwards := m; procs := procs w;
     signals := signals w; now := now w; timers := timers w; log := log w |}.

(** *** The subprocess module *)

(** [subprocess.Popen(cmd, ...)] followed by [time.sleep(1)]: either the call
    raises, or a child is created, whose handle is its index in the process
    table and whose state is the one reached at the end of the sleep. *)
Definition Popen (argv : list string) (oc : launch_outcome) : M (string + nat) :=
  λ w,
    match oc with
    | PopenRaises reason => (inl reason, w)
    | ExitsEarly diagnostic =>
        (inr (length (procs w)),
         set_procs (procs w ++ [{| cmd := argv; running := false;
                                   stderr_text := diagnostic;
                                   stubborn := false |}]) w)
    | Survives b =>
        (inr (length (procs w)),
         set_procs (procs w ++ [{| cmd := argv; running := true;
                                   stderr_text := EmptyString; stubborn := b |}]) w)
    end.

Definition is_running (ps : list proc) (p : nat) : bool :=
  match ps !! p with
  | Some pr => running pr
  | None => false
  end.

(** [process.poll() is None] *)
Definition poll_is_None (p : nat) : M bool := λ w, (is_running (procs w) p, w).

(** [process.stderr.read()] *)
Definition stderr_read (p : nat) : M string :=
  λ w, (match procs w !! p with Some pr => stderr_text pr | None => EmptyString end, w).

Definition exited (pr : proc) : proc :=
  {| cmd := cmd pr; running := false; stderr_text := stderr_text pr;
     stubborn := stubborn pr |}.

Definition deliver (sig : signal) (pr : proc) : proc :=
  match sig with
  | SIGKILL => exited pr
  | SIGTERM => if stubborn pr then pr else exited pr
  end.

Definition send_signal (p : nat) (sig : signal) : M unit :=
  λ w, (tt, {| active_forwards := active_forwards w;
               procs := match procs w !! p with
                        | Some pr => <[p := deliver sig pr]> (procs w)
                        | None => procs w
                        end;
               signals := signals w ++ [(p, sig)];
               now := now w; timers := timers w; log := log w |}).

(** [process.terminate()] and [process.kill()] *)
Definition terminate (p : nat) : M unit := send_signal p SIGTERM.
Definition kill (p : nat) : M unit := send_signal p SIGKILL.

(** [process.wait(timeout=5)]: [true] when the child has exited in time,
    [false] for [subprocess.TimeoutExpired]. *)
Definition wait_5 (p : nat) : M bool := λ w, (negb (is_running (procs w) p), w).

(** ** The program, parameterised by its environment *)

(** What the interpreter and the process environment provide:
    - [hash]: the salted [hash] on strings;
    - [py_int]: the builtin [int] on a string, giving the integer or the
      text of the [ValueError] it raises;
    - [FORWARD_TIMEOUT]: read once from the process environment;
    - [sleep_horizon]: the latest wake-up time, on the clock of the model,
      that [time.sleep] can be asked for.  A sleep that would end later
      raises (on CPython 3.11 for Linux the monotonic clock ends at
      9223372036 seconds: [OSError] when the end of the sleep passes it,
      [OverflowError] when the length alone does). *)
Record env := {
  hash : string → Z;
  py_int : string → Z + string;
  FORWARD_TIMEOUT : Z;
  sleep_horizon : Z
}.

Definition level_of (e : log_event) : level :=
  match e with
  | LogUnauthenticated => WARNING
  | LogLaunchError _ | LogForwardError _ => ERROR
  | _ => INFO
  end.

Definition message_of (E : env) (e : log_event) : string :=
  match e with
  | LogUnauthenticated => "Petición sin autenticación"
  | LogLaunching argv => "Iniciando port-forward: " +:+ String.concat " " argv
  | LogLaunchError detail => "Error al iniciar port-forward: " +:+ detail
  | LogLaunched pod_name pod_port local_port =>
      "Port-forward iniciado exitosamente: " +:+ pod_name +:+ ":"
      +:+ str_of_int pod_port +:+ " -> localhost:" +:+ str_of_int local_port
  | LogStopped session_id => "Port-forward " +:+ session_id +:+ " detenido"
  | LogExpired session_id =>
      "Port-forward " +:+ session_id +:+ " expirado después de "
      +:+ str_of_int (FORWARD_TIMEOUT E) +:+ "s"
  | LogForwardError detail => "Error en endpoint forward: " +:+ detail
  end.

(** The list [cmd] of [start_port_forward]. *)
Definition kubectl_cmd (namespace pod_name : string) (pod_port local_port : Z)
    : list string :=
  ["kubectl"; "port-forward";
   "pod/" +:+ pod_name;
   str_of_int local_port +:+ ":" +:+ str_of_int pod_port;
   "-n"; namespace;
   "--address"; "0.0.0.0"]%string.

Definition start_port_forward (namespace pod_name : string)
    (pod_port local_port : Z) (oc : launch_outcome) : M (option nat) :=
  let argv := kubectl_cmd namespace pod_name pod_port local_port in
  logger (LogLaunching argv) ;;
  r <- Popen argv oc ;;
  match r with
  | inl reason => logger (LogLaunchError reason) ;; ret None
  | inr p =>
      alive <- poll_is_None p ;;
      if alive then
        logger (LogLaunched pod_name pod_port local_port) ;; ret (Some p)
      else
        stderr <- stderr_read p ;;
        logger (LogLaunchError stderr) ;; ret None
  end.

Definition stop_port_forward (session_id : string) : M unit :=
  λ w,
    match active_forwards w !! session_id with
    | Some i =>
        ((match process i with
          | Some p =>
              alive <- poll_is_None p ;;
              if alive then
                terminate p ;;
                in_time <- wait_5 p ;;
                if in_time then ret tt else kill p
              else ret tt
          | None => ret tt
          end) ;;
         (λ w', (tt, set_active_forwards (delete session_id (active_forwards w')) w')) ;;
         logger (LogStopped session_id)) w
    | None => (tt, w)
    end.

(** [timeout_thread.start()]: the thread sleeps [FORWARD_TIMEOUT] seconds
    and then runs the rest of [timeout_handler].  [time.sleep] raises on a
    negative length, and on a length that would end the sleep after
    [sleep_horizon]; the thread ends there, and nothing is left to wake
    up. *)
Definition Thread_start (E : env) (session_id : string) : M unit :=
  λ w,
    if decide (0 ≤ FORWARD_TIMEOUT E
               ∧ now w + FORWARD_TIMEOUT E ≤ sleep_horizon E) then
      (tt, {| active_forwards := active_forwards w; procs := procs w;
              signals := signals w; now := now w;
              timers := timers w ++ [(now w + FORWARD_TIMEOUT E, session_id)];
              log := log w |})
    else (tt, w).

(** The part of [timeout_handler] that follows the sleep. *)
Definition timeout_handler (session_id : string) : M unit :=
  stop_port_forward session_id ;;
  logger (LogExpired session_id).

Definition health : M response :=
  ret (Json [("status", "healthy")]%string, 200).

(** [int(request.args.get('port', 8080))] *)
Definition int_port_arg (E : env) (req : request) : Z + string :=
  match args_get "port" req with
  | Some s => py_int E s
  | None => inl 8080
  end.

Definition forward (E : env) (req : request) (uuid4 : string)
    (oc : launch_outcome) : M response :=
  let auth_header := default EmptyString (authorization req) in
  (if negb (truthy_str auth_header) && negb (truthy (args_get "token" req))
   then logger LogUnauthenticated else ret tt) ;;
  let namespace := args_get "namespace" req in
  let pod_name := args_get "pod" req in
  match int_port_arg E req with
  | inr e =>
      logger (LogForwardError e) ;;
      ret (Json [("error"%string, e)], 500)
  | inl port =>
      if negb (truthy namespace) || negb (truthy pod_name) then
        ret (Json [("error",
                    "Faltan parámetros: namespace y pod son requeridos")]%string,
             400)
      else
        let namespace := default EmptyString namespace in
        let pod_name := default EmptyString pod_name in
        let session_id := uuid4 in
        let local_port := 9000 + hash E session_id mod 1000 in
        process <- start_port_forward namespace pod_name port local_port oc ;;
        match process with
        | None =>
            ret (Html {| Tpl.pod_name := pod_name;
                         Tpl.namespace := namespace;
                         Tpl.port := port;
                         Tpl.local_port := local_port;
                         Tpl.status := "error";
                         Tpl.error := Some "No se pudo iniciar el port-forward"%string;
                         Tpl.session_id := session_id |}, 500)
        | Some _ =>
            t <- time_time ;;
            (λ w, (tt, set_active_forwards
                         (<[session_id := {| process := process;
                                             namespace := namespace;
                                             pod := pod_name;
                                             pod_port := port;
                                             local_port := local_port;
                                             started_at := t |}]>
                            (active_forwards w)) w)) ;;
            Thread_start E session_id ;;
            ret (Html {| Tpl.pod_name := pod_name;
                         Tpl.namespace := namespace;
                         Tpl.port := port;
                         Tpl.local_port := local_port;
                         Tpl.status := "success";
                         Tpl.error := None;
                         Tpl.session_id := session_id |}, 200)
        end
  end.

Definition stop_forward (session_id : string) : M response :=
  stop_port_forward session_id ;;
  ret (Json [("status", "stopped")]%string, 200).

Definition view (ps : list proc) (kv : string * info) : View.entry :=
  {| View.session_id := kv.1;
     View.namespace := namespace kv.2;
     View.pod := pod kv.2;
     View.pod_port := pod_port kv.2;
     View.local_port := local_port kv.2;
     View.active := match process kv.2 with
                    | Some p => is_running ps p
                    | None => false
                    end;
     View.started_at := started_at kv.2 |}.

(** [status]; the order of the listing is that of [map_to_list], the
    dictionary's insertion order is not kept. *)
Definition status : M response :=
  λ w, ((JsonForwards (view (procs w) <$> map_to_list (active_forwards w)), 200), w).

(** ** The environment's moves *)

Fixpoint fire (due : list (Z * string)) : M unit :=
  match due with
  | [] => ret tt
  | (_, session_id) :: due' => timeout_handler session_id ;; fire due'
  end.

(** [d] seconds pass; the timeout threads whose sleep is over run. *)
Definition tick (d : nat) : M unit :=
  λ w,
    let t := now w + Z.of_nat d in
    fire (filter (λ x, x.1 ≤ t) (timers w))
         {| active_forwards := active_forwards w; procs := procs w;
            signals := signals w; now := t;
            timers := filter (λ x, ¬ x.1 ≤ t) (timers w);
            log := log w |}.

(** A child dies without the backend's doing. *)
Definition proc_exit (p : nat) : M unit :=
  λ w, (tt, set_procs (match procs w !! p with
                       | Some pr => <[p := exited pr]> (procs w)
                       | None => procs w
                       end) w).

Inductive action :=
| Forward (req : request) (uuid4 : string) (oc : launch_outcome)
| StopForward (session_id : string)
| Status
| Health
| Tick (d : nat)
| ProcExit (p : nat).

Definition perform (E : env) (a : action) : M (option response) :=
  match a with
  | Forward req uuid4 oc => r <- forward E req uuid4 oc ;; ret (Some r)
  | StopForward session_id => r <- stop_forward session_id ;; ret (Some r)
  | Status => r <- status ;; ret (Some r)
  | Health => r <- health ;; ret (Some r)
  | Tick d => tick d ;; ret None
  | ProcExit p => proc_exit p ;; ret None
  end.

Definition step (E : env) (w : world) (a : action) : world := (perform E a w).2.


Inductive reachable (E : env) : world → Prop :=
| reachable_init : reachable E init_world
| reachable_step w a : reachable E w → reachable E (step E w a).

(** ** A sample environment

    Concrete stand-ins for what the interpreter provides, used to run the
    program on explicit inputs. *)

(** A polynomial string hash, standing for the salted one. *)
Definition demo_hash (s : string) : Z :=
  foldl (λ h c, h * 31 + Z.of_nat (Ascii.nat_of_ascii c)) 0
        (String.list_ascii_of_string s).

Fixpoint digits_value (acc : Z) (s : string) : option Z :=
  match s with
  | EmptyString => Some acc
  | String c s' =>
      let n := Z.of_nat (Ascii.nat_of_ascii c) in
      if (48 <=? n) && (n <=? 57) then digits_value (acc * 10 + (n - 48)) s'
      else None
  end.

(** [int] on plain decimal literals with an optional minus sign. *)
Definition demo_int (s : string) : Z + string :=
  let bad := inr ("invalid literal for int() with base 10: '" +:+ s +:+ "'") in
  match s with
  | EmptyString => bad
  | String c s' =>
      if Ascii.eqb c "-"%char then
        match s' with
        | EmptyString => bad
        | _ => match digits_value 0 s' with Some n => inl (- n) | None => bad end
        end
      else match digits_value 0 s with Some n => inl n | None => bad end
  end.

Definition demo_env : env :=
  {| hash := demo_hash; py_int := demo_int; FORWARD_TIMEOUT := 2;
     sleep_horizon := 9223372036 |}.

Definition demo_request : request :=
  {| authorization := None;
     args := [("namespace", "demo"); ("pod", "web-0"); ("port", "8080")]%string |}.

Definition uuid_a : string := "3f2b8c1e-7a4d-4e9b-9c35-5d0a6b7e0000".
Definition uuid_b : string := "3f2b8c1e-7a4d-4e9b-9c35-5d0a6b7e0118".

(** ** Observations used in the statements *)

(** [sub] occurs in [s]. *)
Fixpoint occurs_in (sub s : string) : bool :=
  String.prefix sub s ||
  match s with
  | EmptyString => false
  | String _ s' => occurs_in sub s'
  end.

(** Every piece of text that a response body is built from. *)
Definition texts_of (b : body) : list string :=
  match b with
  | Json obj => obj.*1 ++ obj.*2
  | JsonForwards l =>
      l ≫= λ e, [View.session_id e; View.namespace e; View.pod e;
                 str_of_int (View.pod_port e); str_of_int (View.local_port e);
                 str_of_int (View.started_at e)]
  | Html c =>
      [Tpl.pod_name c; Tpl.namespace c; str_of_int (Tpl.port c);
       str_of_int (Tpl.local_port c); Tpl.status c;
       default EmptyString (Tpl.error c); Tpl.session_id c]
  end.

Definition carries (r : response) (text : string) : bool :=
  existsb (occurs_in text) (texts_of r.1).

(** The local ports of the registered sessions. *)
Definition held_ports (w : world) : list Z :=
  (λ kv, local_port kv.2) <$> map_to_list (active_forwards w).

(** What [stop_port_forward] sends to a child, and what becomes of the
    process table, for the handle [h] stored in the session. *)
Definition stop_signals (h : option nat) (ps : list proc) : list (nat * signal) :=
  match h with
  | Some p =>
      match ps !! p with
      | Some pr =>
          if running pr then
            (p, SIGTERM) :: (if stubborn pr then [(p, SIGKILL)] else [])
          else []
      | None => []
      end
  | None => []
  end.

Definition stop_procs (h : option nat) (ps : list proc) : list proc :=
  match h with
  | Some p =>
      match ps !! p with
      | Some pr => if running pr then <[p := exited pr]> ps else ps
      | None => ps
      end
  | None => ps
  end.

(** The worlds differ at most by their logs. *)
Definition quiet (w w' : world) : Prop :=
  active_forwards w' = active_forwards w ∧ procs w' = procs w ∧
  signals w' = signals w ∧ now w' = now w ∧ timers w' = timers w.

(** The request names a namespace and a pod, and its port reads as [port]. *)
Definition well_formed (E : env) (req : request) (port : Z) : Prop :=
  truthy (args_get "namespace" req) = true ∧
  truthy (args_get "pod" req) = true ∧
  int_port_arg E req = inl port.

(** The page shown when the launch fails. *)
Definition error_page (E : env) (req : request) (uuid4 : string) (port : Z)
    : response :=
  (Html {| Tpl.pod_name := default EmptyString (args_get "pod" req);
           Tpl.namespace := default EmptyString (args_get "namespace" req);
           Tpl.port := port;
           Tpl.local_port := 9000 + hash E uuid4 mod 1000;
           Tpl.status := "error";
           Tpl.error := Some "No se pudo iniciar el port-forward"%string;
           Tpl.session_id := uuid4 |}, 500).

Definition success_page (E : env) (req : request) (uuid4 : string) (port : Z)
    : response :=
  (Html {| Tpl.pod_name := default EmptyString (args_get "pod" req);
           Tpl.namespace := default EmptyString (args_get "namespace" req);
           Tpl.port := port;
           Tpl.local_port := 9000 + hash E uuid4 mod 1000;
           Tpl.status := "success";
           Tpl.error := None;
           Tpl.session_id := uuid4 |}, 200).

(** The record that [forward] stores for a launched child. *)
Definition new_info (E : env) (req : request) (uuid4 : string) (port : Z)
    (w : world) : info :=
  {| process := Some (length (procs w));
     namespace := default EmptyString (args_get "namespace" req);
     pod := default EmptyString (args_get "pod" req);
     pod_port := port;
     local_port := 9000 + hash E uuid4 mod 1000;
     started_at := now w |}.

(** What [forward] logs before it reads its parameters. *)
Definition auth_log (req : request) : list log_event :=
  if negb (truthy_str (default EmptyString (authorization req)))
     && negb (truthy (args_get "token" req))
  then [LogUnauthenticated] else [].

(** The text that [start_port_forward] logs when the launch fails. *)
Definition failure_text (oc : launch_outcome) : string :=
  match oc with
  | PopenRaises reason => reason
  | ExitsEarly diagnostic => diagnostic
  | Survives _ => EmptyString
  end.

Definition launch_fails (oc : launch_outcome) : bool :=
  match oc with
  | Survives _ => false
  | _ => true
  end.

(** The list carried by a response of [status]. *)
Definition forwards_of (r : response) : list View.entry :=
  match r.1 with
  | JsonForwards l => l
  | _ => []
  end.

(** Every registered session holds a handle of the process table, and its
    local port is the one derived from its identifier. *)
Definition registry_ok (E : env) (w : world) : Prop :=
  ∀ session_id i,
    active_forwards w !! session_id = Some i →
    (∃ p, process i = Some p ∧ (p < length (procs w))%nat) ∧
    local_port i = 9000 + hash E session_id mod 1000.

(** ** The life of one session, for the expiry property *)







Definition count_signal (p : nat) (sig : signal) (l : list (nat * signal)) : nat :=
  length (filter (λ x, x = (p, sig)) l).


Definition stopped_response : response :=
  (Json [("status", "stopped")]%string, 200).

(** A request that leaves the port to its default. *)
Definition plain_request : request :=
  {| authorization := None;
     args := [("namespace", "demo"); ("pod", "web-0")]%string |}.

(** A family of 1001 distinct identifiers of the shape that [uuid.uuid4]
    prints, one more than there are ports. *)
Fixpoint bits (k n : nat) : string :=
  match k with
  | O => EmptyString
  | S k' => bits k' (n / 2) +:+ (if Nat.even n then "0" else "1")
  end.

Definition uuid_of_nat (n : nat) : string :=
  "00000000-0000-4000-8000-" +:+ bits 12 n.

Definition sample_ids : list string := uuid_of_nat <$> seq 0 1001.

(** Reads the characters of an identifier as binary digits, every
    character but "1" counting as zero; it gives back the [n] of
    [uuid_of_nat n]. *)
Definition index_of_uuid (s : string) : nat :=
  foldl (λ acc c, (2 * acc + if Ascii.eqb c "1" then 1 else 0)%nat) 0%nat
        (String.list_ascii_of_string s).

Definition pod_only_request : request :=
  {| authorization := Some "Bearer t"%string;
     args := [("pod", "web-0"); ("port", "abc")]%string |}.



(** The registry with one session, and with two. *)
Definition demo_world : world :=
  step demo_env init_world (Forward demo_request uuid_a (Survives false)).

Definition demo_world2 : world :=
  step demo_env demo_world (Forward demo_request uuid_b (Survives true)).

(** ** Invariants of the runs *)

(** The handles of the registry are those of distinct children that have
    never been signalled; whoever has been signalled is a child that was
    created and has exited; no child has been sent a termination signal
    twice, nor a kill signal without a termination signal before it. *)
Definition signals_ok (w : world) : Prop :=
  (∀ session_id i, active_forwards w !! session_id = Some i →
     ∃ p, process i = Some p ∧ (p < length (procs w))%nat) ∧
  (∀ s1 s2 i1 i2 p,
     active_forwards w !! s1 = Some i1 → active_forwards w !! s2 = Some i2 →
     process i1 = Some p → process i2 = Some p → s1 = s2) ∧
  (∀ session_id i p sig,
     active_forwards w !! session_id = Some i → process i = Some p →
     (p, sig) ∉ signals w) ∧
  (∀ p sig, (p, sig) ∈ signals w →
     (p < length (procs w))%nat ∧ is_running (procs w) p = false) ∧
  (∀ p, (count_signal p SIGTERM (signals w) ≤ 1)%nat) ∧
  (∀ p, (count_signal p SIGKILL (signals w)
         ≤ count_signal p SIGTERM (signals w))%nat).

(** Every registered session was started in the past, and the timeout
    thread that was started with it, which sleeps until the start time plus
    [FORWARD_TIMEOUT], has not run yet. *)
Definition timers_ok (E : env) (w : world) : Prop :=
  ∀ session_id i, active_forwards w !! session_id = Some i →
    started_at i ≤ now w ∧
    (started_at i + FORWARD_TIMEOUT E, session_id) ∈ timers w.

(** The child of every registered session runs the command line built from
    the session's record. *)
Definition commands_ok (w : world) : Prop :=
  ∀ session_id i p,
    active_forwards w !! session_id = Some i → process i = Some p →
    ∃ pr, procs w !! p = Some pr ∧
          cmd pr = kubectl_cmd (namespace i) (pod i) (pod_port i) (local_port i).

(** The worlds differ at most by their children and their logs. *)
Definition quiet_but_procs (w w' : world) : Prop :=
  active_forwards w' = active_forwards w ∧ signals w' = signals w ∧
  now w' = now w ∧ timers w' = timers w.

(** Every child of [ps] is still in [ps'], with the command line it was
    created with. *)
Definition keeps_commands (ps ps' : list proc) : Prop :=
  ∀ q pr, ps !! q = Some pr → ∃ pr', ps' !! q = Some pr' ∧ cmd pr' = cmd pr.

(** The two requests name the same namespace, pod and port; they may differ
    in their credentials and in any other parameter. *)
Definition same_parameters (req req' : request) : Prop :=
  args_get "namespace" req' = args_get "namespace" req ∧
  args_get "pod" req' = args_get "pod" req ∧
  args_get "port" req' = args_get "port" req.

(** The sessions whose timeout thread wakes up when [d] seconds pass. *)
Definition due_sessions (d : nat) (w : world) : list string :=
  (filter (λ x : Z * string, x.1 ≤ now w + Z.of_nat d) (timers w)).*2.

(** For the runs on explicit inputs: the first session stopped by hand, and
    an environment whose lifetime is negative. *)
Definition demo_all_stopped : world :=
  step demo_env demo_world (StopForward uuid_a).

Definition demo_env_negative : env :=
  {| hash := demo_hash; py_int := demo_int; FORWARD_TIMEOUT := -1;
     sleep_horizon := 9223372036 |}.

(** ** Basic facts *)

Ltac unfold_M :=
  unfold stop_forward, health, status, timeout_handler, Thread_start,
    terminate, kill, send_signal, wait_5, poll_is_None, stderr_read,
    time_time, logger, Popen, bind, ret, set_procs, set_active_forwards in *.


Section Properties.

Context (E : env).

Lemma is_running_insert_exited ps p pr :
  is_running (<[p := exited pr]> ps) p = false.
Proof.
  unfold is_running.
  destruct (decide (p < length ps)%nat) as [Hlt|Hge].
  - by rewrite list_lookup_insert_eq.
  - rewrite list_insert_ge by lia. by rewrite lookup_ge_None_2 by lia.
Qed.

Lemma stop_port_forward_absent session_id w :
  active_forwards w !! session_id = None →
  stop_port_forward session_id w = (tt, w).
Proof. intros H. unfold stop_port_forward. by rewrite H. Qed.

Lemma stop_port_forward_present session_id w i :
  active_forwards w !! session_id = Some i →
  stop_port_forward session_id w =
  (tt, {| active_forwards := delete session_id (active_forwards w);
          procs := stop_procs (process i) (procs w);
          signals := signals w ++ stop_signals (process i) (procs w);
          now := now w; timers := timers w;
          log := log w ++ [LogStopped session_id] |}).
Proof.
  intros H. unfold stop_port_forward. rewrite H.
  unfold stop_procs, stop_signals.
  destruct (process i) as [p|]; unfold_M; unfold is_running; simpl;
    [|by rewrite app_nil_r].
  destruct (procs w !! p) as [pr|] eqn:Hp; simpl; [|by rewrite app_nil_r].
  pose proof (lookup_lt_Some _ _ _ Hp) as Hlt.
  destruct (running pr) eqn:R; simpl; [|by rewrite app_nil_r].
  rewrite Hp. destruct (stubborn pr) eqn:S; simpl.
  - rewrite list_lookup_insert_eq by done. rewrite R. simpl.
    rewrite list_lookup_insert_eq by done.
    rewrite list_insert_insert_eq. by rewrite <- (assoc_L (++)).
  - rewrite list_lookup_insert_eq by done. done.
Qed.

(** ** Launching *)

Lemma start_port_forward_survives ns pn pp lp b w :
  start_port_forward ns pn pp lp (Survives b) w =
  (Some (length (procs w)),
   {| active_forwards := active_forwards w;
      procs := procs w ++ [{| cmd := kubectl_cmd ns pn pp lp; running := true;
                              stderr_text := EmptyString; stubborn := b |}];
      signals := signals w; now := now w; timers := timers w;
      log := log w ++ [LogLaunching (kubectl_cmd ns pn pp lp);
                       LogLaunched pn pp lp] |}).
Proof.
  unfold start_port_forward. unfold_M. unfold is_running. simpl.
  rewrite list_lookup_middle by done. simpl.
  by rewrite <- (assoc_L (++)).
Qed.

Lemma start_port_forward_fails ns pn pp lp oc w :
  launch_fails oc = true →
  ∃ ps, start_port_forward ns pn pp lp oc w =
        (None,
         {| active_forwards := active_forwards w; procs := procs w ++ ps;
            signals := signals w; now := now w; timers := timers w;
            log := log w ++ [LogLaunching (kubectl_cmd ns pn pp lp);
                             LogLaunchError (failure_text oc)] |}) ∧
        ∀ pr, pr ∈ ps → running pr = false.
Proof.
  intros Hoc. destruct oc as [reason|diagnostic|b]; [| |done].
  - exists []. split; [|by intros pr Hin; inversion Hin].
    unfold start_port_forward. unfold_M. simpl.
    by rewrite app_nil_r, <- (assoc_L (++)).
  - exists [{| cmd := kubectl_cmd ns pn pp lp; running := false;
                stderr_text := diagnostic; stubborn := false |}]. split.
    + unfold start_port_forward. unfold_M. unfold is_running. simpl.
      rewrite list_lookup_middle by done. simpl.
      rewrite list_lookup_middle by done.
      by rewrite <- (assoc_L (++)).
    + intros pr Hin. apply list_elem_of_singleton in Hin. by subst.
Qed.

Lemma forward_prelude req (k : M response) w :
  ((if negb (truthy_str (default EmptyString (authorization req)))
       && negb (truthy (args_get "token" req))
    then logger LogUnauthenticated else ret tt) ;; k) w =
  k {| active_forwards := active_forwards w; procs := procs w;
       signals := signals w; now := now w; timers := timers w;
       log := log w ++ auth_log req |}.
Proof.
  unfold auth_log.
  destruct (negb _ && negb _); unfold_M; simpl; [done|].
  rewrite app_nil_r. by destruct w.
Qed.

Lemma forward_bad_port req uuid4 oc w e :
  int_port_arg E req = inr e →
  forward E req uuid4 oc w =
  ((Json [("error"%string, e)], 500),
   {| active_forwards := active_forwards w; procs := procs w;
      signals := signals w; now := now w; timers := timers w;
      log := log w ++ auth_log req ++ [LogForwardError e] |}).
Proof.
  intros He. unfold forward. rewrite forward_prelude, He.
  unfold_M. simpl. by rewrite <- (assoc_L (++)).
Qed.

Lemma forward_missing req uuid4 oc w port :
  int_port_arg E req = inl port →
  truthy (args_get "namespace" req) && truthy (args_get "pod" req) = false →
  forward E req uuid4 oc w =
  ((Json [("error",
           "Faltan parámetros: namespace y pod son requeridos")]%string, 400),
   {| active_forwards := active_forwards w; procs := procs w;
      signals := signals w; now := now w; timers := timers w;
      log := log w ++ auth_log req |}).
Proof.
  intros Hport Hmiss. unfold forward. rewrite forward_prelude, Hport.
  replace (negb (truthy (args_get "namespace" req))
           || negb (truthy (args_get "pod" req))) with true; [done|].
  by destruct (truthy (args_get "namespace" req)),
              (truthy (args_get "pod" req)).
Qed.

Lemma forward_launch_failed req uuid4 oc w port :
  well_formed E req port →
  launch_fails oc = true →
  ∃ ps, (∀ pr, pr ∈ ps → running pr = false) ∧
  forward E req uuid4 oc w =
  (error_page E req uuid4 port,
   {| active_forwards := active_forwards w; procs := procs w ++ ps;
      signals := signals w; now := now w; timers := timers w;
      log := log w ++ auth_log req ++
             [LogLaunching (kubectl_cmd
                              (default EmptyString (args_get "namespace" req))
                              (default EmptyString (args_get "pod" req))
                              port (9000 + hash E uuid4 mod 1000));
              LogLaunchError (failure_text oc)] |}).
Proof.
  intros (Hns & Hpod & Hport) Hoc.
  unfold forward. rewrite forward_prelude, Hport, Hns, Hpod. simpl.
  set (w0 := {| active_forwards := active_forwards w |}).
  destruct (start_port_forward_fails
              (default EmptyString (args_get "namespace" req))
              (default EmptyString (args_get "pod" req))
              port (9000 + hash E uuid4 mod 1000) oc w0 Hoc) as (ps & Hrun & Hps).
  exists ps. split; [done|].
  unfold bind at 1. rewrite Hrun. unfold ret, error_page. simpl.
  by rewrite <- (assoc_L (++)).
Qed.

Lemma forward_launched req uuid4 b w port :
  well_formed E req port →
  forward E req uuid4 (Survives b) w =
  (success_page E req uuid4 port,
   {| active_forwards := <[uuid4 := new_info E req uuid4 port w]> (active_forwards w);
      procs := procs w ++
               [{| cmd := kubectl_cmd
                            (default EmptyString (args_get "namespace" req))
                            (default EmptyString (args_get "pod" req))
                            port (9000 + hash E uuid4 mod 1000);
                   running := true; stderr_text := EmptyString;
                   stubborn := b |}];
      signals := signals w; now := now w;
      timers := timers w ++
                (if decide (0 ≤ FORWARD_TIMEOUT E
                            ∧ now w + FORWARD_TIMEOUT E ≤ sleep_horizon E)
                 then [(now w + FORWARD_TIMEOUT E, uuid4)] else []);
      log := log w ++ auth_log req ++
             [LogLaunching (kubectl_cmd
                              (default EmptyString (args_get "namespace" req))
                              (default EmptyString (args_get "pod" req))
                              port (9000 + hash E uuid4 mod 1000));
              LogLaunched (default EmptyString (args_get "pod" req)) port
                          (9000 + hash E uuid4 mod 1000)] |}).
Proof.
  intros (Hns & Hpod & Hport).
  unfold forward. rewrite forward_prelude, Hport, Hns, Hpod. simpl.
  unfold bind at 1. rewrite start_port_forward_survives.
  unfold_M. unfold success_page, new_info. simpl.
  rewrite <- (assoc_L (++)).
  destruct (decide (0 ≤ FORWARD_TIMEOUT E
                    ∧ now w + FORWARD_TIMEOUT E ≤ sleep_horizon E));
    simpl; [done|].
  by rewrite app_nil_r.
Qed.

(** Every call of [forward] is one of the four above. *)
Lemma forward_cases req oc :
  (∃ e, int_port_arg E req = inr e) ∨
  (∃ port, int_port_arg E req = inl port ∧
           truthy (args_get "namespace" req)
           && truthy (args_get "pod" req) = false) ∨
  (∃ port, well_formed E req port ∧ launch_fails oc = true) ∨
  (∃ port b, well_formed E req port ∧ oc = Survives b).
Proof.
  unfold well_formed.
  destruct (int_port_arg E req) as [port|e]; [|left; eauto].
  right.
  destruct (truthy (args_get "namespace" req)) eqn:Hns; [|left; eauto].
  destruct (truthy (args_get "pod" req)) eqn:Hpod; [|left; eauto].
  right. destruct oc as [reason|diagnostic|b]; [left|left|right]; eauto 10.
Qed.

Lemma is_running_app_exited ps ps' p :
  (∀ pr, pr ∈ ps' → running pr = false) →
  is_running (ps ++ ps') p = is_running ps p.
Proof.
  intros Hdead. unfold is_running.
  destruct (decide (p < length ps)%nat) as [Hlt|Hge].
  - by rewrite lookup_app_l.
  - rewrite lookup_app_r, (lookup_ge_None_2 ps) by lia.
    destruct (ps' !! (p - length ps)%nat) as [pr|] eqn:Hpr; [|done].
    apply Hdead. by eapply list_elem_of_lookup_2.
Qed.

Lemma prefix_refl s : String.prefix s s = true.
Proof.
  induction s as [|c s IH]; simpl; [done|].
  by destruct (ascii_dec c c).
Qed.

Lemma occurs_in_app s sub : occurs_in sub (s +:+ sub) = true.
Proof.
  induction s as [|c s IH]; simpl.
  - destruct sub as [|c sub]; simpl; [done|].
    destruct (ascii_dec c c); [|done]. by rewrite prefix_refl.
  - rewrite IH. apply orb_true_r.
Qed.

(** ** Starting *)

(** C2, as the code has it: when the child exits during the observation
    window, [forward] answers a well-formed request with the error page,
    HTTP code 500, whose error text is the fixed sentence of [error_page];
    the page is the same whatever the child wrote on its error stream.  The
    child's text goes to the log, in one error record whose message contains
    it. *)
Theorem forward_early_exit_logged req uuid4 diagnostic w port :
  well_formed E req port →
  (forward E req uuid4 (ExitsEarly diagnostic) w).1 = error_page E req uuid4 port ∧
  (∀ other, (forward E req uuid4 (ExitsEarly other) w).1
            = (forward E req uuid4 (ExitsEarly diagnostic) w).1) ∧
  LogLaunchError diagnostic ∈ log (forward E req uuid4 (ExitsEarly diagnostic) w).2 ∧
  level_of (LogLaunchError diagnostic) = ERROR ∧
  occurs_in diagnostic (message_of E (LogLaunchError diagnostic)) = true.
Proof.
  intros Hwf.
  assert (Hpage : ∀ d, (forward E req uuid4 (ExitsEarly d) w).1
                       = error_page E req uuid4 port).
  { intros d.
    destruct (forward_launch_failed req uuid4 (ExitsEarly d) w port Hwf eq_refl)
      as (ps & _ & ->). done. }
  split; [apply Hpage|]. split; [intros other; by rewrite !Hpage|].
  split; [|split; [done|apply occurs_in_app]].
  destruct (forward_launch_failed req uuid4 (ExitsEarly diagnostic) w port
              Hwf eq_refl) as (ps & _ & ->).
  simpl. rewrite !elem_of_app. right. right. set_solver.
Qed.

(** C3: when the launch fails on a well-formed request, after the local port
    has been chosen, [forward] answers with the error page (HTTP code 500)
    and leaves the registry as it was: no session is added, the set of held
    ports is the same, no timeout thread is started, and no process that was
    not running before is running now. *)
Theorem forward_all_or_nothing req uuid4 oc w port :
  well_formed E req port →
  launch_fails oc = true →
  (forward E req uuid4 oc w).1 = error_page E req uuid4 port ∧
  (forward E req uuid4 oc w).1.2 = 500 ∧
  active_forwards (forward E req uuid4 oc w).2 = active_forwards w ∧
  held_ports (forward E req uuid4 oc w).2 = held_ports w ∧
  timers (forward E req uuid4 oc w).2 = timers w ∧
  ∀ p, is_running (procs (forward E req uuid4 oc w).2) p = is_running (procs w) p.
Proof.
  intros Hwf Hoc.
  destruct (forward_launch_failed req uuid4 oc w port Hwf Hoc)
    as (ps & Hdead & ->).
  unfold held_ports. simpl. repeat split; try done.
  intros p. by apply is_running_app_exited.
Qed.

(** C8: whenever [forward] answers with HTTP code 200, the session it has
    registered under the new identifier, and the page it returns, carry a
    local port between 9000 and 9999. *)
Theorem forward_port_in_pool req uuid4 oc w :
  (forward E req uuid4 oc w).1.2 = 200 →
  ∃ i c,
    active_forwards (forward E req uuid4 oc w).2 !! uuid4 = Some i ∧
    (forward E req uuid4 oc w).1.1 = Html c ∧
    Tpl.local_port c = local_port i ∧
    9000 ≤ local_port i ≤ 9999.
Proof.
  intros Hcode.
  destruct (forward_cases req oc)
    as [(e & He)|[(port & Hport & Hmiss)|[(port & Hwf & Hoc)|(port & b & Hwf & ->)]]].
  - by rewrite (forward_bad_port _ _ _ _ _ He) in Hcode.
  - by rewrite (forward_missing _ _ _ _ _ Hport Hmiss) in Hcode.
  - destruct (forward_launch_failed req uuid4 oc w port Hwf Hoc)
      as (ps & _ & Hf).
    by rewrite Hf in Hcode.
  - rewrite (forward_launched _ _ _ _ _ Hwf). simpl.
    eexists _, _. split; [apply lookup_insert_eq|]. split; [done|].
    split; [done|]. simpl.
    pose proof (Z.mod_pos_bound (hash E uuid4) 1000). lia.
Qed.

(** C10, as the code has it: a request that lacks the namespace or the pod
    parameter starts no process and leaves the registry, the timeout threads
    and the signals as they were.  It is answered with HTTP code 400 when
    its port parameter is absent or read by [int], and with HTTP code 500
    and the text of the exception when [int] rejects the port parameter. *)
Theorem forward_missing_parameter req uuid4 oc w :
  args_get "namespace" req = None ∨ args_get "pod" req = None →
  quiet w (forward E req uuid4 oc w).2 ∧
  (∀ port, int_port_arg E req = inl port →
     (forward E req uuid4 oc w).1 =
     (Json [("error",
             "Faltan parámetros: namespace y pod son requeridos")]%string, 400)) ∧
  (∀ e, int_port_arg E req = inr e →
     (forward E req uuid4 oc w).1 = (Json [("error"%string, e)], 500)).
Proof.
  intros Hmiss.
  assert (Hfalse : truthy (args_get "namespace" req)
                   && truthy (args_get "pod" req) = false).
  { destruct Hmiss as [-> | ->]; simpl; [done|apply andb_false_r]. }
  destruct (int_port_arg E req) as [port|e] eqn:Hport.
  - rewrite (forward_missing _ _ _ _ _ Hport Hfalse). simpl.
    split; [done|]. by split; [intros ? [= <-]|].
  - rewrite (forward_bad_port _ _ _ _ _ Hport). simpl.
    split; [done|]. by split; [|intros ? [= <-]].
Qed.

(** ** Stopping *)

Lemma stop_forward_answer session_id w :
  (stop_forward session_id w).1 = stopped_response.
Proof.
  unfold stop_forward, bind, ret. by destruct (stop_port_forward session_id w).
Qed.

Lemma stop_forward_world session_id w :
  (stop_forward session_id w).2 = (stop_port_forward session_id w).2.
Proof.
  unfold stop_forward, bind, ret. by destruct (stop_port_forward session_id w).
Qed.

(** C4, as the code has it: stopping an identifier that is not registered
    changes nothing and is answered exactly like a stop that found its
    session, with status "stopped" and HTTP code 200; no request to
    [stop_forward] is answered otherwise. *)
Theorem stop_forward_unknown_session session_id w :
  active_forwards w !! session_id = None →
  stop_forward session_id w = (stopped_response, w) ∧
  ∀ session_id' w', (stop_forward session_id' w').1 = stopped_response.
Proof.
  intros H. split; [|intros s' w'; apply stop_forward_answer].
  unfold stop_forward, bind, ret. by rewrite stop_port_forward_absent.
Qed.

(** C5: two calls of stop in a row on a registered session.  Both are
    answered with the success response.  The first call removes the session
    and sends the termination signal once if the child is still running and
    not at all if it has already exited; the second call finds the session
    absent and leaves the world as it is.  Over the two calls the session is
    removed once, one stop is logged, the child receives at most one
    termination signal and is not running afterwards. *)
Theorem stop_forward_twice session_id w i p :
  active_forwards w !! session_id = Some i →
  process i = Some p →
  let w1 := (stop_forward session_id w).2 in
  let w2 := (stop_forward session_id w1).2 in
  (stop_forward session_id w).1 = stopped_response ∧
  (stop_forward session_id w1).1 = stopped_response ∧
  active_forwards w1 = delete session_id (active_forwards w) ∧
  active_forwards w1 !! session_id = None ∧
  w2 = w1 ∧
  log w2 = log w ++ [LogStopped session_id] ∧
  count_signal p SIGTERM (signals w2) =
    (count_signal p SIGTERM (signals w)
     + if is_running (procs w) p then 1 else 0)%nat ∧
  is_running (procs w2) p = false.
Proof.
  intros Hi Hp w1 w2.
  assert (Hw1 : w1 = {| active_forwards := delete session_id (active_forwards w);
          procs := stop_procs (process i) (procs w);
          signals := signals w ++ stop_signals (process i) (procs w);
          now := now w; timers := timers w;
          log := log w ++ [LogStopped session_id] |}).
  { subst w1. rewrite stop_forward_world.
    by rewrite (stop_port_forward_present _ _ _ Hi). }
  assert (Hgone : active_forwards w1 !! session_id = None).
  { rewrite Hw1. simpl. apply lookup_delete_eq. }
  assert (Hw2 : w2 = w1).
  { subst w2. rewrite stop_forward_world.
    by rewrite (stop_port_forward_absent _ _ Hgone). }
  split; [apply stop_forward_answer|].
  split; [apply stop_forward_answer|].
  split; [by rewrite Hw1|]. split; [done|]. split; [done|].
  rewrite Hw2, Hw1. simpl. split; [done|].
  rewrite Hp. unfold stop_procs, stop_signals, count_signal, is_running.
  rewrite filter_app, length_app.
  destruct (procs w !! p) as [pr|] eqn:Hpr; simpl.
  - destruct (running pr) eqn:R; simpl.
    + split; [|apply is_running_insert_exited].
      rewrite filter_cons_True by done.
      destruct (stubborn pr); simpl; [|done].
      by rewrite filter_cons_False by done.
    + rewrite Hpr, R. split; [lia|done].
  - rewrite Hpr. split; [lia|done].
Qed.

Lemma stop_port_forward_registry session_id w :
  active_forwards (stop_port_forward session_id w).2
  = delete session_id (active_forwards w).
Proof.
  destruct (active_forwards w !! session_id) as [i|] eqn:Hi.
  - by rewrite (stop_port_forward_present _ _ _ Hi).
  - rewrite (stop_port_forward_absent _ _ Hi). by rewrite delete_id.
Qed.

Lemma stop_procs_length h ps : length (stop_procs h ps) = length ps.
Proof.
  unfold stop_procs. destruct h as [p|]; [|done].
  destruct (ps !! p) as [pr|]; [|done].
  destruct (running pr); [|done]. apply length_insert.
Qed.

Lemma stop_procs_running h ps q :
  is_running (stop_procs h ps) q = true → is_running ps q = true.
Proof.
  unfold stop_procs. destruct h as [p|]; [|done].
  destruct (ps !! p) as [pr|] eqn:Hpr; [|done].
  destruct (running pr); [|done].
  destruct (decide (p = q)) as [->|Hne].
  - by rewrite is_running_insert_exited.
  - unfold is_running. by rewrite list_lookup_insert_ne.
Qed.

Lemma stop_procs_stopped p ps : is_running (stop_procs (Some p) ps) p = false.
Proof.
  unfold stop_procs.
  destruct (ps !! p) as [pr|] eqn:Hpr.
  - destruct (running pr) eqn:R; [apply is_running_insert_exited|].
    unfold is_running. by rewrite Hpr.
  - unfold is_running. by rewrite Hpr.
Qed.

Lemma stop_port_forward_frame session_id w :
  now (stop_port_forward session_id w).2 = now w ∧
  timers (stop_port_forward session_id w).2 = timers w ∧
  length (procs (stop_port_forward session_id w).2) = length (procs w) ∧
  ∀ q, is_running (procs (stop_port_forward session_id w).2) q = true →
       is_running (procs w) q = true.
Proof.
  destruct (active_forwards w !! session_id) as [i|] eqn:Hi.
  - rewrite (stop_port_forward_present _ _ _ Hi). simpl.
    split; [done|]. split; [done|]. split; [apply stop_procs_length|].
    intros q. apply stop_procs_running.
  - by rewrite (stop_port_forward_absent _ _ Hi).
Qed.


(** ** Expiry *)



Lemma timeout_handler_eq session_id w :
  timeout_handler session_id w =
  (tt, {| active_forwards := delete session_id (active_forwards w);
          procs := procs (stop_port_forward session_id w).2;
          signals := signals (stop_port_forward session_id w).2;
          now := now w; timers := timers w;
          log := log (stop_port_forward session_id w).2
                 ++ [LogExpired session_id] |}).
Proof.
  unfold timeout_handler, bind, logger.
  pose proof (stop_port_forward_registry session_id w) as Hreg.
  destruct (stop_port_forward_frame session_id w) as (Hnow & Htm & _).
  destruct (stop_port_forward session_id w) as [[] w']. simpl in *.
  by rewrite Hreg, Hnow, Htm.
Qed.

Lemma fire_cons t session_id due w :
  fire ((t, session_id) :: due) w = fire due (timeout_handler session_id w).2.
Proof.
  simpl. unfold bind at 1.
  by destruct (timeout_handler session_id w) as [[] w'].
Qed.

Lemma fire_frame due : ∀ w,
  now (fire due w).2 = now w ∧
  timers (fire due w).2 = timers w ∧
  length (procs (fire due w).2) = length (procs w) ∧
  ∀ q, is_running (procs (fire due w).2) q = true →
       is_running (procs w) q = true.
Proof.
  induction due as [|[t s] due IH]; intros w; [done|].
  rewrite fire_cons.
  destruct (IH (timeout_handler s w).2) as (Hnow & Htm & Hlen & Hrun).
  destruct (stop_port_forward_frame s w) as (_ & _ & Hlen' & Hrun').
  rewrite timeout_handler_eq in *. simpl in *.
  rewrite Hnow, Htm, Hlen, Hlen'. repeat split; try done.
  intros q Hq. by apply Hrun', Hrun.
Qed.

Lemma fire_registry due : ∀ w session_id,
  active_forwards (fire due w).2 !! session_id =
  if decide (session_id ∈ due.*2) then None
  else active_forwards w !! session_id.
Proof.
  induction due as [|[t s] due IH]; intros w session_id.
  - rewrite decide_False; [done|]. rewrite fmap_nil. apply not_elem_of_nil.
  - rewrite fire_cons, IH, timeout_handler_eq, fmap_cons.
    cbn [active_forwards snd].
    destruct (decide (session_id ∈ due.*2)) as [Hin|Hnin].
    + rewrite decide_True; [done|]. by apply list_elem_of_further.
    + destruct (decide (session_id = s)) as [->|Hne].
      * rewrite lookup_delete_eq, decide_True; [done|]. apply list_elem_of_here.
      * rewrite lookup_delete_ne, decide_False; [done| |done].
        rewrite elem_of_cons. tauto.
Qed.





Lemma tick_eq d w :
  tick d w =
  fire (filter (λ x, x.1 ≤ now w + Z.of_nat d) (timers w))
       {| active_forwards := active_forwards w; procs := procs w;
          signals := signals w; now := now w + Z.of_nat d;
          timers := filter (λ x, ¬ x.1 ≤ now w + Z.of_nat d) (timers w);
          log := log w |}.
Proof. done. Qed.

Lemma tick_frame d w :
  now (tick d w).2 = now w + Z.of_nat d ∧
  timers (tick d w).2 = filter (λ x, ¬ x.1 ≤ now w + Z.of_nat d) (timers w) ∧
  length (procs (tick d w).2) = length (procs w) ∧
  ∀ q, is_running (procs (tick d w).2) q = true →
       is_running (procs w) q = true.
Proof.
  rewrite tick_eq.
  match goal with
  | |- context [fire ?due ?w0] =>
      destruct (fire_frame due w0) as (-> & -> & -> & Hrun)
  end.
  done.
Qed.

Lemma tick_registry d w session_id :
  active_forwards (tick d w).2 !! session_id =
  if decide (session_id ∈ (filter (λ x, x.1 ≤ now w + Z.of_nat d) (timers w)).*2)
  then None else active_forwards w !! session_id.
Proof. rewrite tick_eq. by rewrite fire_registry. Qed.

(** ** Steps *)

Lemma step_forward req uuid4 oc w :
  step E w (Forward req uuid4 oc) = (forward E req uuid4 oc w).2.
Proof.
  unfold step, perform, bind, ret. by destruct (forward E req uuid4 oc w).
Qed.

Lemma step_stop session_id w :
  step E w (StopForward session_id) = (stop_port_forward session_id w).2.
Proof.
  unfold step, perform, stop_forward, bind, ret.
  by destruct (stop_port_forward session_id w).
Qed.

Lemma step_tick d w : step E w (Tick d) = (tick d w).2.
Proof. unfold step, perform, bind, ret. by destruct (tick d w). Qed.

Lemma step_proc_exit p w :
  step E w (ProcExit p) =
  set_procs (match procs w !! p with
             | Some pr => <[p := exited pr]> (procs w)
             | None => procs w
             end) w.
Proof. done. Qed.

Lemma proc_exit_length p w :
  length (procs (step E w (ProcExit p))) = length (procs w).
Proof.
  rewrite step_proc_exit. simpl.
  destruct (procs w !! p); [apply length_insert|done].
Qed.

Lemma proc_exit_running p w q :
  is_running (procs (step E w (ProcExit p))) q = true →
  is_running (procs w) q = true.
Proof.
  rewrite step_proc_exit. simpl.
  destruct (procs w !! p) as [pr|] eqn:Hpr; [|done].
  destruct (decide (p = q)) as [->|Hne].
  - by rewrite is_running_insert_exited.
  - unfold is_running. by rewrite list_lookup_insert_ne.
Qed.

(** ** The registry invariant *)

Lemma registry_ok_weaken w w' :
  registry_ok E w →
  (∀ session_id i, active_forwards w' !! session_id = Some i →
                   active_forwards w !! session_id = Some i) →
  (length (procs w) ≤ length (procs w'))%nat →
  registry_ok E w'.
Proof.
  intros Hok Hsub Hlen session_id i Hi.
  destruct (Hok _ _ (Hsub _ _ Hi)) as ((p & Hp & Hlt) & Hport).
  split; [|done]. exists p. split; [done|lia].
Qed.

Lemma registry_ok_forward req uuid4 oc w :
  registry_ok E w → registry_ok E (forward E req uuid4 oc w).2.
Proof.
  intros Hok.
  destruct (forward_cases req oc)
    as [(e & He)|[(port & Hport & Hmiss)|[(port & Hwf & Hoc)|(port & b & Hwf & ->)]]].
  - rewrite (forward_bad_port _ _ _ _ _ He). by eapply registry_ok_weaken.
  - rewrite (forward_missing _ _ _ _ _ Hport Hmiss).
    by eapply registry_ok_weaken.
  - destruct (forward_launch_failed req uuid4 oc w port Hwf Hoc)
      as (ps & _ & ->).
    eapply registry_ok_weaken; [done|done|]. simpl. rewrite length_app. lia.
  - rewrite (forward_launched _ _ _ _ _ Hwf).
    intros session_id i. simpl. rewrite length_app. simpl.
    destruct (decide (uuid4 = session_id)) as [->|Hne].
    + rewrite lookup_insert_eq. intros [= <-]. simpl.
      split; [|done]. eexists. split; [done|lia].
    + rewrite lookup_insert_ne by done. intros Hi.
      destruct (Hok _ _ Hi) as ((p & Hp & Hlt) & Hlp).
      split; [|done]. exists p. split; [done|lia].
Qed.

Lemma registry_ok_step w a : registry_ok E w → registry_ok E (step E w a).
Proof.
  intros Hok. destruct a as [req uuid4 oc|session_id| | |d|p].
  - rewrite step_forward. by apply registry_ok_forward.
  - rewrite step_stop. eapply registry_ok_weaken; [done| |].
    + intros k i. rewrite stop_port_forward_registry.
      rewrite lookup_delete_Some. tauto.
    + by destruct (stop_port_forward_frame session_id w) as (_ & _ & -> & _).
  - done.
  - done.
  - rewrite step_tick. eapply registry_ok_weaken; [done| |].
    + intros k i. rewrite tick_registry. by case_decide.
    + by destruct (tick_frame d w) as (_ & _ & -> & _).
  - eapply registry_ok_weaken; [done|done|]. by rewrite proc_exit_length.
Qed.

Lemma registry_ok_reachable w : reachable E w → registry_ok E w.
Proof.
  induction 1 as [|w a _ IH]; [|by apply registry_ok_step].
  intros session_id i Hi. simpl in Hi. by rewrite lookup_empty in Hi.
Qed.

(** C9: in every world that the backend can reach, each record of
    [active_forwards] holds a process handle, not [None], and the handle
    names a child that was created: [forward] stores a record only after
    [start_port_forward] has returned a handle, and nothing else writes a
    record. *)
Theorem registered_sessions_hold_a_process w session_id i :
  reachable E w →
  active_forwards w !! session_id = Some i →
  ∃ p, process i = Some p ∧ (p < length (procs w))%nat.
Proof.
  intros Hreach Hi. by destruct (registry_ok_reachable w Hreach _ _ Hi).
Qed.

(** C1, as the code has it: the local port of every registered session is
    9000 plus its identifier's hash modulo 1000, chosen without looking at
    the ports already held; so two distinct sessions registered at the same
    time have different local ports exactly when the hashes of their
    identifiers differ modulo 1000. *)
Theorem local_ports_follow_hash w s1 s2 i1 i2 :
  reachable E w →
  s1 ≠ s2 →
  active_forwards w !! s1 = Some i1 →
  active_forwards w !! s2 = Some i2 →
  local_port i1 = 9000 + hash E s1 mod 1000 ∧
  local_port i2 = 9000 + hash E s2 mod 1000 ∧
  (local_port i1 ≠ local_port i2 ↔ hash E s1 mod 1000 ≠ hash E s2 mod 1000).
Proof.
  intros Hreach _ H1 H2.
  destruct (registry_ok_reachable w Hreach _ _ H1) as (_ & ->).
  destruct (registry_ok_reachable w Hreach _ _ H2) as (_ & ->).
  split; [done|]. split; [done|]. lia.
Qed.

(** Whatever the hash, two of the 1001 sample identifiers get the same
    residue, hence the same local port. *)
Lemma sample_ids_NoDup : NoDup sample_ids.
Proof.
  apply (NoDup_fmap_1 index_of_uuid).
  assert (index_of_uuid <$> sample_ids = seq 0 1001) as -> by by vm_compute.
  apply NoDup_seq.
Qed.

Lemma residue_collision (f : string → Z) (l : list string) (n : nat) :
  NoDup l →
  (∀ x, x ∈ l → 0 ≤ f x < Z.of_nat n) →
  (n < length l)%nat →
  ∃ x y, x ∈ l ∧ y ∈ l ∧ x ≠ y ∧ f x = f y.
Proof.
  intros Hnd Hrange Hlen.
  destruct (decide (Exists (λ x, Exists (λ y, x ≠ y ∧ f x = f y) l) l))
    as [Hex|Hnone].
  - apply Exists_exists in Hex as (x & Hx & Hex).
    apply Exists_exists in Hex as (y & Hy & Hne & Heq). eauto 10.
  - exfalso.
    assert (Hinj : NoDup (f <$> l)).
    { apply NoDup_fmap_2_strong; [|done]. intros x y Hx Hy Heq.
      destruct (decide (x = y)) as [|Hne]; [done|].
      destruct Hnone. apply Exists_exists. exists x. split; [done|].
      apply Exists_exists. by exists y. }
    assert (Hsub : f <$> l ⊆+ seqZ 0 (Z.of_nat n)).
    { apply NoDup_submseteq; [done|]. intros z Hz.
      apply list_elem_of_fmap in Hz as (x & -> & Hx).
      apply elem_of_seqZ. specialize (Hrange x Hx). lia. }
    apply submseteq_length in Hsub.
    rewrite length_fmap, length_seqZ in Hsub. lia.
Qed.

Lemma port_collision_for_every_hash :
  ∃ s1 s2, s1 ≠ s2 ∧ hash E s1 mod 1000 = hash E s2 mod 1000.
Proof.
  destruct (residue_collision (λ s, hash E s mod 1000) sample_ids 1000)
    as (s1 & s2 & _ & _ & Hne & Heq).
  - apply sample_ids_NoDup.
  - intros s _. apply (Z.mod_pos_bound (hash E s) 1000). lia.
  - unfold sample_ids. rewrite length_fmap, length_seq. lia.
  - eauto.
Qed.

Lemma plain_request_well_formed : well_formed E plain_request 8080.
Proof. by repeat split. Qed.

(** X13: whatever the hash of the interpreter, the backend can reach a
    world where two distinct sessions, both with a running child, hold the
    same local port: among 1001 identifiers two get the same residue, and
    [forward] registers both. *)
Lemma shared_port_reachable :
  ∃ w s1 s2 i1 i2 p1 p2,
    reachable E w ∧ s1 ≠ s2 ∧
    active_forwards w !! s1 = Some i1 ∧
    active_forwards w !! s2 = Some i2 ∧
    process i1 = Some p1 ∧ process i2 = Some p2 ∧
    is_running (procs w) p1 = true ∧
    is_running (procs w) p2 = true ∧
    local_port i1 = local_port i2.
Proof.
  destruct port_collision_for_every_hash as (s1 & s2 & Hne & Heq).
  pose (w1 := step E init_world (Forward plain_request s1 (Survives false))).
  pose (w2 := step E w1 (Forward plain_request s2 (Survives false))).
  assert (Hw1 : w1 = (forward E plain_request s1 (Survives false) init_world).2)
    by apply step_forward.
  assert (Hw2 : w2 = (forward E plain_request s2 (Survives false) w1).2)
    by apply step_forward.
  rewrite (forward_launched _ _ _ _ _ plain_request_well_formed) in Hw1.
  rewrite (forward_launched _ _ _ _ _ plain_request_well_formed) in Hw2.
  simpl in Hw1, Hw2.
  exists w2, s1, s2, (new_info E plain_request s1 8080 init_world),
    (new_info E plain_request s2 8080 w1), 0%nat, 1%nat.
  split; [apply reachable_step, reachable_step, reachable_init|].
  split; [done|].
  rewrite Hw2. simpl.
  split; [rewrite lookup_insert_ne by done; rewrite Hw1; simpl;
          apply lookup_insert_eq|].
  split; [apply lookup_insert_eq|].
  split; [done|]. split; [by rewrite Hw1|].
  rewrite Hw1. simpl. split; [done|]. split; [done|]. by rewrite Heq.
Qed.

(** ** The life of a session *)












(** With a negative [FORWARD_TIMEOUT] the timeout thread dies in its sleep
    and no expiry is scheduled. *)
Lemma negative_timeout_schedules_nothing session_id w :
  FORWARD_TIMEOUT E < 0 → Thread_start E session_id w = (tt, w).
Proof. intros Hneg. unfold Thread_start. by rewrite decide_False by lia. Qed.

(** So it is when the sleep would end after [sleep_horizon]. *)
Lemma oversized_timeout_schedules_nothing session_id w :
  sleep_horizon E < now w + FORWARD_TIMEOUT E →
  Thread_start E session_id w = (tt, w).
Proof. intros Hbig. unfold Thread_start. by rewrite decide_False by lia. Qed.

Lemma now_step_le w a : now w ≤ now (step E w a).
Proof.
  destruct a as [req uuid4 oc|session_id| | |d|p].
  - rewrite step_forward.
    destruct (forward_cases req oc)
      as [(e & He)|[(port & Hport & Hmiss)|[(port & Hwf & Hoc)|(port & b & Hwf & ->)]]].
    + by rewrite (forward_bad_port _ _ _ _ _ He).
    + by rewrite (forward_missing _ _ _ _ _ Hport Hmiss).
    + by destruct (forward_launch_failed req uuid4 oc w port Hwf Hoc)
        as (ps & _ & ->).
    + by rewrite (forward_launched _ _ _ _ _ Hwf).
  - rewrite step_stop.
    by destruct (stop_port_forward_frame session_id w) as (-> & _).
  - done.
  - done.
  - rewrite step_tick. destruct (tick_frame d w) as (-> & _). lia.
  - done.
Qed.





Lemma still_exited (ps ps' : list proc) p :
  (∀ q, is_running ps' q = true → is_running ps q = true) →
  is_running ps p = false →
  is_running ps' p = false.
Proof.
  intros Hmono Hp. destruct (is_running ps' p) eqn:Hp'; [|done].
  apply Hmono in Hp'. congruence.
Qed.






(** ** Listing *)

Lemma elem_of_forwards_of_status w e :
  e ∈ forwards_of (status w).1 ↔
  ∃ session_id i, active_forwards w !! session_id = Some i ∧
                  e = view (procs w) (session_id, i).
Proof.
  unfold status, forwards_of. simpl. rewrite list_elem_of_fmap. split.
  - intros ([k i] & -> & Hin). apply elem_of_map_to_list in Hin. eauto.
  - intros (k & i & Hi & ->). exists (k, i). split; [done|].
    by apply elem_of_map_to_list.
Qed.

(** C6: [status] lists every registered session, and the active flag of a
    listed session is the answer of its process to [poll] at the time of
    the listing: it is set exactly when the process is running in the
    current process table.  So when the process of a session dies without
    the backend's doing, the next listing reports that session as not
    active. *)
Theorem status_reports_liveness w session_id i :
  active_forwards w !! session_id = Some i →
  (status w).2 = w ∧
  (∃ e, e ∈ forwards_of (status w).1 ∧ View.session_id e = session_id) ∧
  (∀ e, e ∈ forwards_of (status w).1 → View.session_id e = session_id →
        View.active e = match process i with
                        | Some p => is_running (procs w) p
                        | None => false
                        end) ∧
  (∀ p e, process i = Some p →
          e ∈ forwards_of (status (proc_exit p w).2).1 →
          View.session_id e = session_id →
          View.active e = false).
Proof.
  intros Hi. split; [done|]. split; [|split].
  - exists (view (procs w) (session_id, i)). split; [|done].
    apply elem_of_forwards_of_status. eauto.
  - intros e He Hid. apply elem_of_forwards_of_status in He
      as (k & i' & Hi' & ->). simpl in Hid. subst k.
    rewrite Hi in Hi'. by injection Hi' as <-.
  - intros p e Hp He Hid. apply elem_of_forwards_of_status in He
      as (k & i' & Hi' & ->). simpl in Hid, Hi'. subst k.
    rewrite Hi in Hi'. injection Hi' as <-. simpl. rewrite Hp.
    destruct (procs w !! p) as [pr|] eqn:Hpr.
    + apply is_running_insert_exited.
    + unfold is_running. by rewrite Hpr.
Qed.


(** ** Further properties of stopping *)

Lemma count_signal_app p sig l l' :
  count_signal p sig (l ++ l')
  = (count_signal p sig l + count_signal p sig l')%nat.
Proof. unfold count_signal. by rewrite filter_app, length_app. Qed.

Lemma count_signal_cons p sig x l :
  count_signal p sig (x :: l)
  = ((if decide (x = (p, sig)) then 1 else 0) + count_signal p sig l)%nat.
Proof.
  unfold count_signal. destruct (decide (x = (p, sig))).
  - by rewrite filter_cons_True.
  - by rewrite filter_cons_False.
Qed.

Lemma count_signal_zero p sig l : count_signal p sig l = 0%nat ↔ (p, sig) ∉ l.
Proof.
  induction l as [|x l IH]; [by split; [intros _ ?%not_elem_of_nil|]|].
  rewrite count_signal_cons, not_elem_of_cons.
  destruct (decide (x = (p, sig))) as [->|Hne].
  - split; [done|tauto].
  - rewrite <- IH. split; [|intros [_ ->]; done].
    intros H. split; [congruence|]. simpl in H. lia.
Qed.

Lemma exited_id pr : running pr = false → exited pr = pr.
Proof. destruct pr. simpl. by intros ->. Qed.

(** X1: stopping a registered session whose child is still running sends
    the child one termination signal, and one kill signal after it exactly
    when the child does not exit within the five seconds; a child that has
    already exited is sent nothing.  In each case the child is not running
    afterwards and keeps its command line and its error text. *)
Theorem stop_port_forward_escalates session_id w i p pr :
  active_forwards w !! session_id = Some i →
  process i = Some p →
  procs w !! p = Some pr →
  signals (stop_port_forward session_id w).2 =
    signals w ++ (if running pr
                  then (p, SIGTERM) :: (if stubborn pr then [(p, SIGKILL)] else [])
                  else []) ∧
  procs (stop_port_forward session_id w).2 = <[p := exited pr]> (procs w) ∧
  is_running (procs (stop_port_forward session_id w).2) p = false.
Proof.
  intros Hi Hp Hpr. rewrite (stop_port_forward_present _ _ _ Hi). simpl.
  rewrite Hp. unfold stop_signals, stop_procs. rewrite Hpr.
  split; [done|].
  destruct (running pr) eqn:R.
  - split; [done|apply is_running_insert_exited].
  - rewrite exited_id by done. rewrite list_insert_id by done.
    split; [done|]. unfold is_running. by rewrite Hpr.
Qed.

(** X2: stopping a session touches that session alone: every other record
    of the registry, the clock and the timeout threads are as before, and a
    child that is not the one of the stopped session keeps its state and is
    sent no signal. *)
Theorem stop_port_forward_touches_one session_id w :
  active_forwards (stop_port_forward session_id w).2 !! session_id = None ∧
  (∀ s, s ≠ session_id →
        active_forwards (stop_port_forward session_id w).2 !! s
        = active_forwards w !! s) ∧
  now (stop_port_forward session_id w).2 = now w ∧
  timers (stop_port_forward session_id w).2 = timers w ∧
  (∀ q, (∀ i, active_forwards w !! session_id = Some i → process i ≠ Some q) →
        procs (stop_port_forward session_id w).2 !! q = procs w !! q ∧
        ∀ sig, count_signal q sig (signals (stop_port_forward session_id w).2)
               = count_signal q sig (signals w)).
Proof.
  rewrite stop_port_forward_registry.
  split; [apply lookup_delete_eq|].
  split; [intros s Hs; by rewrite lookup_delete_ne|].
  destruct (stop_port_forward_frame session_id w) as (-> & -> & _).
  split; [done|]. split; [done|].
  intros q Hq.
  destruct (active_forwards w !! session_id) as [i|] eqn:Hi.
  - rewrite (stop_port_forward_present _ _ _ Hi). simpl.
    specialize (Hq i eq_refl). unfold stop_procs, stop_signals.
    destruct (process i) as [p|]; [|split; [done|intros; by rewrite app_nil_r]].
    assert (p ≠ q) by congruence.
    destruct (procs w !! p) as [pr|];
      [|split; [done|intros; by rewrite app_nil_r]].
    destruct (running pr);
      [|split; [done|intros; by rewrite app_nil_r]].
    split; [by rewrite list_lookup_insert_ne|].
    intros sig. rewrite count_signal_app, count_signal_cons.
    rewrite decide_False by congruence.
    destruct (stubborn pr); [|simpl; unfold count_signal; simpl; lia].
    rewrite count_signal_cons, decide_False by congruence.
    unfold count_signal. simpl. lia.
  - by rewrite (stop_port_forward_absent _ _ Hi).
Qed.

(** ** Further properties of starting *)

(** X3: after a successful start the listing of [status] shows the new
    session, once, with the namespace, the pod and the port of the request
    (8080 when the request names no port), the local port of the page, the
    time of the start, and the active flag set. *)
Theorem started_session_is_listed req uuid4 b w port :
  well_formed E req port →
  (args_get "port" req = None → port = 8080) ∧
  (∃ e, e ∈ forwards_of (status (forward E req uuid4 (Survives b) w).2).1 ∧
        View.session_id e = uuid4) ∧
  (∀ e, e ∈ forwards_of (status (forward E req uuid4 (Survives b) w).2).1 →
        View.session_id e = uuid4 →
        e = {| View.session_id := uuid4;
               View.namespace := default EmptyString (args_get "namespace" req);
               View.pod := default EmptyString (args_get "pod" req);
               View.pod_port := port;
               View.local_port := 9000 + hash E uuid4 mod 1000;
               View.active := true;
               View.started_at := now w |}).
Proof.
  intros Hwf.
  assert (Hview : view (procs (forward E req uuid4 (Survives b) w).2)
                       (uuid4, new_info E req uuid4 port w)
                  = {| View.session_id := uuid4;
                       View.namespace := default EmptyString (args_get "namespace" req);
                       View.pod := default EmptyString (args_get "pod" req);
                       View.pod_port := port;
                       View.local_port := 9000 + hash E uuid4 mod 1000;
                       View.active := true;
                       View.started_at := now w |}).
  { rewrite (forward_launched _ _ _ _ _ Hwf). unfold view, is_running. simpl.
    by rewrite list_lookup_middle. }
  assert (Hreg : active_forwards (forward E req uuid4 (Survives b) w).2 !! uuid4
                 = Some (new_info E req uuid4 port w)).
  { rewrite (forward_launched _ _ _ _ _ Hwf). simpl. apply lookup_insert_eq. }
  split; [|split].
  - intros Hnone. destruct Hwf as (_ & _ & Hport).
    unfold int_port_arg in Hport. rewrite Hnone in Hport. congruence.
  - eexists. split; [apply elem_of_forwards_of_status; eauto|done].
  - intros e He Hid. apply elem_of_forwards_of_status in He
      as (k & i & Hi & ->). simpl in Hid. subst k.
    rewrite Hreg in Hi. injection Hi as <-. apply Hview.
Qed.

(** X4: a start under an identifier that is not registered, followed by a
    stop of that identifier, gives back the registry of before: the child
    has been sent a termination signal (and a kill signal if it ignores the
    first), it is not running, the children that existed before are as they
    were, and [status] does not list the session.  The stop does not touch
    the timeout threads: when [time.sleep] has accepted [FORWARD_TIMEOUT]
    (a length that is not negative and ends before [sleep_horizon]), the
    thread of the session is still asleep after the stop. *)
Theorem start_then_stop_restores req uuid4 b w port :
  well_formed E req port →
  active_forwards w !! uuid4 = None →
  let started := (forward E req uuid4 (Survives b) w).2 in
  let stopped := (stop_forward uuid4 started).2 in
  active_forwards stopped = active_forwards w ∧
  signals stopped =
    signals w ++ (length (procs w), SIGTERM)
                 :: (if b then [(length (procs w), SIGKILL)] else []) ∧
  is_running (procs stopped) (length (procs w)) = false ∧
  (∀ q, (q < length (procs w))%nat → procs stopped !! q = procs w !! q) ∧
  timers stopped = timers started ∧
  (0 ≤ FORWARD_TIMEOUT E →
   now w + FORWARD_TIMEOUT E ≤ sleep_horizon E →
   (now w + FORWARD_TIMEOUT E, uuid4) ∈ timers stopped) ∧
  (∀ e, e ∈ forwards_of (status stopped).1 → View.session_id e ≠ uuid4).
Proof.
  intros Hwf Hfresh started stopped.
  assert (Hstarted : started = (forward E req uuid4 (Survives b) w).2) by done.
  rewrite (forward_launched _ _ _ _ _ Hwf) in Hstarted. simpl in Hstarted.
  assert (Hi : active_forwards started !! uuid4
               = Some (new_info E req uuid4 port w)).
  { rewrite Hstarted. simpl. apply lookup_insert_eq. }
  assert (Hstopped : stopped = (stop_port_forward uuid4 started).2)
    by apply stop_forward_world.
  rewrite (stop_port_forward_present _ _ _ Hi) in Hstopped.
  simpl in Hstopped. unfold stop_procs, stop_signals in Hstopped.
  rewrite Hstarted in Hstopped. simpl in Hstopped.
  rewrite list_lookup_middle in Hstopped by done. simpl in Hstopped.
  assert (Hlist : ∀ e, e ∈ forwards_of (status stopped).1 →
                       View.session_id e ≠ uuid4).
  { intros e He Hid. apply elem_of_forwards_of_status in He
      as (k & i & Hk & ->). simpl in Hid. subst k.
    rewrite Hstopped in Hk. simpl in Hk.
    rewrite delete_insert_id in Hk by done. congruence. }
  split; [rewrite Hstopped; simpl; by rewrite delete_insert_id|].
  split; [by rewrite Hstopped|].
  split; [rewrite Hstopped; simpl; apply is_running_insert_exited|].
  split.
  { intros q Hq. rewrite Hstopped. simpl.
    rewrite list_lookup_insert_ne by lia. by apply lookup_app_l. }
  split; [by rewrite Hstopped, Hstarted|].
  split; [|done].
  intros Hft Hhorizon. rewrite Hstopped. simpl. rewrite decide_True by done.
  rewrite elem_of_app. right. apply list_elem_of_here.
Qed.

(** X5: [forward] answers with one of the HTTP codes 200, 400 and 500.
    It answers 200 exactly when the request is well formed and the child
    survives the observation window; 400 exactly when the port is read and
    the namespace or the pod is missing or empty; 500 exactly when [int]
    rejects the port, or the request is well formed and the launch fails. *)
Theorem forward_status_code req uuid4 oc w :
  ((forward E req uuid4 oc w).1.2 = 200 ↔
     (∃ port, well_formed E req port) ∧ launch_fails oc = false) ∧
  ((forward E req uuid4 oc w).1.2 = 400 ↔
     (∃ port, int_port_arg E req = inl port) ∧
     truthy (args_get "namespace" req) && truthy (args_get "pod" req) = false) ∧
  ((forward E req uuid4 oc w).1.2 = 500 ↔
     (∃ e, int_port_arg E req = inr e) ∨
     ((∃ port, well_formed E req port) ∧ launch_fails oc = true)) ∧
  ((forward E req uuid4 oc w).1.2 = 200 ∨
   (forward E req uuid4 oc w).1.2 = 400 ∨
   (forward E req uuid4 oc w).1.2 = 500).
Proof.
  set (P200 := (∃ port, well_formed E req port) ∧ launch_fails oc = false).
  set (P400 := (∃ port, int_port_arg E req = inl port) ∧
               truthy (args_get "namespace" req)
               && truthy (args_get "pod" req) = false).
  set (P500 := (∃ e, int_port_arg E req = inr e) ∨
               ((∃ port, well_formed E req port) ∧ launch_fails oc = true)).
  destruct (forward_cases req oc)
    as [(e & He)|[(port & Hport & Hmiss)|[(port & Hwf & Hoc)|(port & b & Hwf & ->)]]].
  - rewrite (forward_bad_port _ _ _ _ _ He). simpl.
    assert (¬ P200) by (intros [(port & _ & _ & Hp) _]; congruence).
    assert (¬ P400) by (intros [(port & Hp) _]; congruence).
    assert P500 by (left; eauto).
    split; [split; [intros [=]|tauto]|].
    split; [split; [intros [=]|tauto]|]. split; [done|tauto].
  - rewrite (forward_missing _ _ _ _ _ Hport Hmiss). simpl.
    assert (¬ P200).
    { intros [(port' & Hns & Hpod & _) _]. by rewrite Hns, Hpod in Hmiss. }
    assert P400 by (split; eauto).
    assert (¬ P500).
    { intros [(e & He)|[(port' & Hns & Hpod & _) _]]; [congruence|].
      by rewrite Hns, Hpod in Hmiss. }
    split; [split; [intros [=]|tauto]|].
    split; [done|]. split; [split; [intros [=]|tauto]|tauto].
  - destruct (forward_launch_failed req uuid4 oc w port Hwf Hoc)
      as (ps & _ & ->). simpl.
    assert (¬ P200) by (intros [_ Hoc']; congruence).
    assert (¬ P400).
    { intros [_ Hmiss]. destruct Hwf as (Hns & Hpod & _).
      by rewrite Hns, Hpod in Hmiss. }
    assert P500 by (right; eauto).
    split; [split; [intros [=]|tauto]|].
    split; [split; [intros [=]|tauto]|]. split; [done|tauto].
  - rewrite (forward_launched _ _ _ _ _ Hwf). simpl.
    assert P200 by (split; eauto).
    assert (¬ P400).
    { intros [_ Hmiss]. destruct Hwf as (Hns & Hpod & _).
      by rewrite Hns, Hpod in Hmiss. }
    assert (¬ P500).
    { intros [(e & He)|[_ [=]]]. destruct Hwf as (_ & _ & Hp). congruence. }
    split; [done|]. split; [split; [intros [=]|tauto]|].
    split; [split; [intros [=]|tauto]|tauto].
Qed.

(** X6: the credentials of a request decide nothing.  Two requests that
    name the same namespace, pod and port are answered alike and have the
    same effect on the registry, the children, the signals, the clock and
    the timeout threads, whatever their [Authorization] header and their
    other parameters are; only the log may differ. *)
Theorem forward_ignores_credentials req req' uuid4 oc w :
  same_parameters req req' →
  (forward E req' uuid4 oc w).1 = (forward E req uuid4 oc w).1 ∧
  quiet (forward E req uuid4 oc w).2 (forward E req' uuid4 oc w).2.
Proof.
  intros (Hns & Hpod & Hport).
  assert (Hint : int_port_arg E req' = int_port_arg E req)
    by (unfold int_port_arg; by rewrite Hport).
  destruct (forward_cases req oc)
    as [(e & He)|[(port & Hp & Hmiss)|[(port & Hwf & Hoc)|(port & b & Hwf & ->)]]].
  - rewrite (forward_bad_port req _ _ _ _ He).
    by rewrite (forward_bad_port req' _ _ _ e) by congruence.
  - rewrite (forward_missing req _ _ _ _ Hp Hmiss).
    by rewrite (forward_missing req' _ _ _ port) by congruence.
  - assert (Hwf' : well_formed E req' port)
      by (unfold well_formed in *; by rewrite Hns, Hpod, Hint).
    destruct oc as [reason|diagnostic|b]; [| |done].
    + unfold forward. rewrite !forward_prelude, Hint.
      destruct Hwf as (Hn & Hq & ->). rewrite Hns, Hpod, Hn, Hq. simpl.
      unfold start_port_forward. unfold_M. by simpl.
    + unfold forward. rewrite !forward_prelude, Hint.
      destruct Hwf as (Hn & Hq & ->). rewrite Hns, Hpod, Hn, Hq. simpl.
      unfold start_port_forward. unfold_M. unfold is_running. simpl.
      by rewrite !list_lookup_middle by done.
  - assert (Hwf' : well_formed E req' port)
      by (unfold well_formed in *; by rewrite Hns, Hpod, Hint).
    rewrite (forward_launched req _ _ _ _ Hwf).
    rewrite (forward_launched req' _ _ _ _ Hwf').
    unfold success_page, new_info, quiet. simpl. by rewrite Hns, Hpod.
Qed.

(** X7: when [subprocess.Popen] raises, on a well-formed request, no child
    is created and nothing but the log changes; the last record of the log
    is the error record whose message ends with the text of the exception,
    and the answer is the error page with HTTP code 500. *)
Theorem forward_popen_raises req uuid4 reason w port :
  well_formed E req port →
  (forward E req uuid4 (PopenRaises reason) w).1 = error_page E req uuid4 port ∧
  quiet w (forward E req uuid4 (PopenRaises reason) w).2 ∧
  last (log (forward E req uuid4 (PopenRaises reason) w).2)
  = Some (LogLaunchError reason) ∧
  level_of (LogLaunchError reason) = ERROR ∧
  message_of E (LogLaunchError reason)
  = "Error al iniciar port-forward: " +:+ reason.
Proof.
  intros (Hns & Hpod & Hport).
  unfold forward. rewrite forward_prelude, Hport, Hns, Hpod. simpl.
  unfold start_port_forward. unfold_M. simpl.
  split; [done|]. split; [done|]. split; [|done].
  by rewrite last_snoc.
Qed.

(** ** Further properties of listing *)

(** X11: [status] changes nothing and answers with HTTP code 200; its list
    has one entry for each registered session and no other entry, no
    identifier twice, and each entry repeats the record of its session. *)
Theorem status_lists_the_registry w :
  (status w).2 = w ∧
  (status w).1.2 = 200 ∧
  length (forwards_of (status w).1) = size (active_forwards w) ∧
  NoDup (View.session_id <$> forwards_of (status w).1) ∧
  (∀ session_id, session_id ∈ (View.session_id <$> forwards_of (status w).1)
                 ↔ is_Some (active_forwards w !! session_id)) ∧
  (∀ e, e ∈ forwards_of (status w).1 →
        ∃ i, active_forwards w !! View.session_id e = Some i ∧
             View.namespace e = namespace i ∧ View.pod e = pod i ∧
             View.pod_port e = pod_port i ∧
             View.local_port e = local_port i ∧
             View.started_at e = started_at i).
Proof.
  split; [done|]. split; [done|].
  assert (Hids : View.session_id <$> forwards_of (status w).1
                 = (map_to_list (active_forwards w)).*1).
  { unfold status, forwards_of. simpl. rewrite <- list_fmap_compose.
    by apply list_fmap_ext. }
  split.
  { unfold status, forwards_of. simpl.
    by rewrite length_fmap, length_map_to_list. }
  split; [rewrite Hids; apply NoDup_fst_map_to_list|].
  split.
  - intros session_id. rewrite Hids, list_elem_of_fmap. split.
    + intros ([k i] & -> & Hin). apply elem_of_map_to_list in Hin. by eexists.
    + intros [i Hi]. exists (session_id, i). split; [done|].
      by apply elem_of_map_to_list.
  - intros e He. apply elem_of_forwards_of_status in He
      as (k & i & Hi & ->). by exists i.
Qed.

(** ** Signals over whole runs *)

Lemma elem_of_stop_signals h ps q sig :
  (q, sig) ∈ stop_signals h ps → h = Some q.
Proof.
  unfold stop_signals. destruct h as [p|]; [|by intros ?%not_elem_of_nil].
  destruct (ps !! p) as [pr|]; [|by intros ?%not_elem_of_nil].
  destruct (running pr); [|by intros ?%not_elem_of_nil].
  destruct (stubborn pr).
  - rewrite !elem_of_cons. intros [[= -> _]|[[= -> _]|H]]; [done|done|].
    by apply not_elem_of_nil in H.
  - rewrite !elem_of_cons. intros [[= -> _]|H]; [done|].
    by apply not_elem_of_nil in H.
Qed.

Lemma count_stop_signals h ps q :
  (count_signal q SIGTERM (stop_signals h ps) ≤ 1)%nat ∧
  (count_signal q SIGKILL (stop_signals h ps)
   ≤ count_signal q SIGTERM (stop_signals h ps))%nat.
Proof.
  assert (Hnil : (count_signal q SIGTERM [] ≤ 1)%nat ∧
                 (count_signal q SIGKILL [] ≤ count_signal q SIGTERM [])%nat)
    by (unfold count_signal; simpl; lia).
  unfold stop_signals. destruct h as [p|]; [|done].
  destruct (ps !! p) as [pr|]; [|done].
  destruct (running pr); [|done].
  destruct (stubborn pr); rewrite !count_signal_cons;
    unfold count_signal; simpl;
    repeat case_decide; simplify_eq; lia.
Qed.

Lemma signals_ok_same w w' :
  active_forwards w' = active_forwards w →
  procs w' = procs w →
  signals w' = signals w →
  signals_ok w → signals_ok w'.
Proof. unfold signals_ok. by intros -> -> ->. Qed.

Lemma signals_ok_stop session_id w :
  signals_ok w → signals_ok (stop_port_forward session_id w).2.
Proof.
  intros (Hvalid & Hinj & Hunsig & Hsig & Hterm & Hkill).
  destruct (active_forwards w !! session_id) as [i|] eqn:Hi;
    [|by rewrite (stop_port_forward_absent _ _ Hi)].
  destruct (Hvalid _ _ Hi) as (p & Hp & Hlt).
  rewrite (stop_port_forward_present _ _ _ Hi). unfold signals_ok. simpl.
  rewrite Hp, stop_procs_length.
  split; [|split; [|split; [|split; [|split]]]].
  - intros s i'. rewrite lookup_delete_Some. intros [_ Hi']. eauto.
  - intros s1 s2 i1 i2 q. rewrite !lookup_delete_Some.
    intros [_ H1] [_ H2]. eauto.
  - intros s i' q sig. rewrite lookup_delete_Some. intros [Hne Hi'] Hq.
    rewrite not_elem_of_app. split; [eauto|].
    intros [= ->]%elem_of_stop_signals. by destruct Hne; eapply Hinj.
  - intros q sig. rewrite elem_of_app. intros [Hold|[= ->]%elem_of_stop_signals].
    + destruct (Hsig _ _ Hold) as [Hq Hdead]. split; [done|].
      eapply still_exited; [apply stop_procs_running|done].
    + split; [done|apply stop_procs_stopped].
  - intros q. rewrite count_signal_app.
    destruct (count_stop_signals (Some p) (procs w) q) as [Hnew _].
    destruct (decide (q = p)) as [->|Hne].
    + assert (count_signal p SIGTERM (signals w) = 0%nat) as ->; [|lia].
      apply count_signal_zero. eauto.
    + assert (count_signal q SIGTERM (stop_signals (Some p) (procs w)) = 0%nat)
        as ->; [|specialize (Hterm q); lia].
      apply count_signal_zero. intros [= ->]%elem_of_stop_signals. done.
  - intros q. rewrite !count_signal_app.
    destruct (count_stop_signals (Some p) (procs w) q) as [_ Hnew].
    specialize (Hkill q). lia.
Qed.

Lemma signals_ok_fire due : ∀ w, signals_ok w → signals_ok (fire due w).2.
Proof.
  induction due as [|[t s] due IH]; intros w Hw; [done|].
  rewrite fire_cons. apply IH. rewrite timeout_handler_eq.
  eapply signals_ok_same; [| | |by apply (signals_ok_stop s)]; simpl;
    [by rewrite stop_port_forward_registry|done|done].
Qed.

Lemma signals_ok_forward req uuid4 oc w :
  signals_ok w → signals_ok (forward E req uuid4 oc w).2.
Proof.
  intros Hw.
  destruct (forward_cases req oc)
    as [(e & He)|[(port & Hport & Hmiss)|[(port & Hwf & Hoc)|(port & b & Hwf & ->)]]].
  - rewrite (forward_bad_port _ _ _ _ _ He). by eapply signals_ok_same.
  - rewrite (forward_missing _ _ _ _ _ Hport Hmiss). by eapply signals_ok_same.
  - destruct (forward_launch_failed req uuid4 oc w port Hwf Hoc)
      as (ps & Hdead & ->).
    destruct Hw as (Hvalid & Hinj & Hunsig & Hsig & Hterm & Hkill).
    unfold signals_ok. simpl. rewrite length_app.
    split; [|split; [done|split; [done|split; [|done]]]].
    + intros s i Hi. destruct (Hvalid _ _ Hi) as (p & Hp & Hlt).
      exists p. split; [done|lia].
    + intros q sig Hq. destruct (Hsig _ _ Hq) as [Hlt Hdead'].
      split; [lia|]. by rewrite is_running_app_exited.
  - rewrite (forward_launched _ _ _ _ _ Hwf).
    destruct Hw as (Hvalid & Hinj & Hunsig & Hsig & Hterm & Hkill).
    unfold signals_ok. simpl. rewrite length_app. simpl.
    split; [|split; [|split; [|split; [|done]]]].
    + intros s i. destruct (decide (uuid4 = s)) as [<-|Hne].
      * rewrite lookup_insert_eq. intros [= <-]. simpl.
        eexists. split; [done|lia].
      * rewrite lookup_insert_ne by done. intros Hi.
        destruct (Hvalid _ _ Hi) as (p & Hp & Hlt). exists p. split; [done|lia].
    + intros s1 s2 i1 i2 q.
      destruct (decide (uuid4 = s1)) as [<-|Hne1],
               (decide (uuid4 = s2)) as [<-|Hne2]; [done| | |].
      * rewrite lookup_insert_eq, lookup_insert_ne by done.
        intros [= <-] H2 [= <-] Hq.
        destruct (Hvalid _ _ H2) as (p & Hp & Hlt). rewrite Hq in Hp.
        injection Hp as <-. lia.
      * rewrite lookup_insert_ne, lookup_insert_eq by done.
        intros H1 [= <-] Hq [= <-].
        destruct (Hvalid _ _ H1) as (p & Hp & Hlt). rewrite Hq in Hp.
        injection Hp as <-. lia.
      * rewrite !lookup_insert_ne by done. apply Hinj.
    + intros s i q sig. destruct (decide (uuid4 = s)) as [<-|Hne].
      * rewrite lookup_insert_eq. intros [= <-] [= <-] Hq.
        destruct (Hsig _ _ Hq). lia.
      * rewrite lookup_insert_ne by done. apply Hunsig.
    + intros q sig Hq. destruct (Hsig _ _ Hq) as [Hlt Hdead].
      split; [lia|]. unfold is_running in *. by rewrite lookup_app_l.
Qed.

Lemma signals_ok_step w a : signals_ok w → signals_ok (step E w a).
Proof.
  intros Hw. destruct a as [req uuid4 oc|session_id| | |d|p].
  - rewrite step_forward. by apply signals_ok_forward.
  - rewrite step_stop. by apply signals_ok_stop.
  - done.
  - done.
  - rewrite step_tick, tick_eq. apply signals_ok_fire.
    by eapply signals_ok_same.
  - destruct Hw as (Hvalid & Hinj & Hunsig & Hsig & Hterm & Hkill).
    unfold signals_ok. rewrite proc_exit_length.
    split; [done|]. split; [done|]. split; [done|]. split; [|done].
    intros q sig Hq. destruct (Hsig _ _ Hq) as [Hlt Hdead].
    split; [done|]. eapply still_exited; [|done]. apply proc_exit_running.
Qed.

Lemma signals_ok_reachable w : reachable E w → signals_ok w.
Proof.
  induction 1 as [|w a _ IH]; [|by apply signals_ok_step].
  unfold signals_ok. simpl.
  split; [intros ? ?; by rewrite lookup_empty|].
  split; [intros ? ? ? ? ?; by rewrite lookup_empty|].
  split; [intros ? ? ? ?; by rewrite lookup_empty|].
  split; [by intros ? ? ?%not_elem_of_nil|].
  unfold count_signal. simpl. split; intros; lia.
Qed.

(** X8: over any run of the backend, no child is sent the termination
    signal twice, and a kill signal is sent only to a child that was sent a
    termination signal first.  A child that has been signalled is one that
    the backend created, it has exited, and no session of the registry holds
    it any more. *)
Theorem no_child_is_signalled_twice w p :
  reachable E w →
  (count_signal p SIGTERM (signals w) ≤ 1)%nat ∧
  (count_signal p SIGKILL (signals w) ≤ count_signal p SIGTERM (signals w))%nat ∧
  (∀ sig, (p, sig) ∈ signals w →
          (p < length (procs w))%nat ∧
          is_running (procs w) p = false ∧
          ∀ session_id i, active_forwards w !! session_id = Some i →
                          process i ≠ Some p).
Proof.
  intros Hreach.
  destruct (signals_ok_reachable w Hreach)
    as (_ & _ & Hunsig & Hsig & Hterm & Hkill).
  split; [done|]. split; [done|].
  intros sig Hin. destruct (Hsig _ _ Hin) as [Hlt Hdead].
  split; [done|]. split; [done|].
  intros s i Hi Hp. by eapply Hunsig.
Qed.

(** ** Timeout threads over whole runs *)

Lemma timers_ok_same w w' :
  active_forwards w' = active_forwards w →
  now w' = now w →
  timers w' = timers w →
  timers_ok E w → timers_ok E w'.
Proof. unfold timers_ok. by intros -> -> ->. Qed.

Lemma timers_ok_forward req uuid4 oc w :
  0 ≤ FORWARD_TIMEOUT E →
  now w + FORWARD_TIMEOUT E ≤ sleep_horizon E →
  timers_ok E w → timers_ok E (forward E req uuid4 oc w).2.
Proof.
  intros Hft Hhorizon Hw.
  destruct (forward_cases req oc)
    as [(e & He)|[(port & Hport & Hmiss)|[(port & Hwf & Hoc)|(port & b & Hwf & ->)]]].
  - rewrite (forward_bad_port _ _ _ _ _ He). by eapply timers_ok_same.
  - rewrite (forward_missing _ _ _ _ _ Hport Hmiss). by eapply timers_ok_same.
  - destruct (forward_launch_failed req uuid4 oc w port Hwf Hoc)
      as (ps & _ & ->). by eapply timers_ok_same.
  - rewrite (forward_launched _ _ _ _ _ Hwf).
    unfold timers_ok. simpl. rewrite decide_True by done.
    intros s i. destruct (decide (uuid4 = s)) as [<-|Hne].
    + rewrite lookup_insert_eq. intros [= <-]. simpl. split; [lia|].
      rewrite elem_of_app. right. apply list_elem_of_here.
    + rewrite lookup_insert_ne by done. intros Hi.
      destruct (Hw _ _ Hi) as (Hpast & Hin).
      split; [done|]. rewrite elem_of_app. by left.
Qed.

Lemma timers_ok_step w a :
  0 ≤ FORWARD_TIMEOUT E →
  now w + FORWARD_TIMEOUT E ≤ sleep_horizon E →
  timers_ok E w → timers_ok E (step E w a).
Proof.
  intros Hft Hhorizon Hw. destruct a as [req uuid4 oc|session_id| | |d|p].
  - rewrite step_forward. by apply timers_ok_forward.
  - rewrite step_stop. unfold timers_ok.
    rewrite stop_port_forward_registry.
    destruct (stop_port_forward_frame session_id w) as (-> & -> & _).
    intros s i. rewrite lookup_delete_Some. intros [_ Hi]. eauto.
  - done.
  - done.
  - rewrite step_tick. unfold timers_ok.
    destruct (tick_frame d w) as (-> & -> & _).
    intros s i. rewrite tick_registry. case_decide as Hdue; [done|].
    intros Hi. destruct (Hw _ _ Hi) as (Hpast & Hin).
    split; [lia|].
    apply list_elem_of_filter. split; [|done]. simpl. intros Hle.
    apply Hdue. apply list_elem_of_fmap.
    exists (started_at i + FORWARD_TIMEOUT E, s). split; [done|].
    by apply list_elem_of_filter.
  - by eapply timers_ok_same.
Qed.

Lemma timers_ok_reachable w :
  0 ≤ FORWARD_TIMEOUT E →
  reachable E w →
  now w + FORWARD_TIMEOUT E ≤ sleep_horizon E →
  timers_ok E w.
Proof.
  intros Hft. induction 1 as [|w a _ IH]; intros Hhorizon.
  - intros ? ?. simpl. by rewrite lookup_empty.
  - pose proof (now_step_le w a) as Hmono.
    apply timers_ok_step; [done|lia|]. apply IH. lia.
Qed.

(** X9: with a [FORWARD_TIMEOUT] that [time.sleep] accepts (not negative,
    and with the present time plus [FORWARD_TIMEOUT] not after
    [sleep_horizon]), in every world that the backend can reach each
    registered session was started in the past, and the timeout thread
    started with it, which sleeps until the start time plus
    [FORWARD_TIMEOUT], has not run yet: no session is registered without
    its expiry to come. *)
Theorem every_session_has_an_expiry w session_id i :
  0 ≤ FORWARD_TIMEOUT E →
  reachable E w →
  now w + FORWARD_TIMEOUT E ≤ sleep_horizon E →
  active_forwards w !! session_id = Some i →
  started_at i ≤ now w ∧
  (started_at i + FORWARD_TIMEOUT E, session_id) ∈ timers w.
Proof.
  intros Hft Hreach Hhorizon Hi.
  by apply (timers_ok_reachable w Hft Hreach Hhorizon).
Qed.

Lemma no_timers_reachable w :
  FORWARD_TIMEOUT E < 0 → reachable E w → timers w = [].
Proof.
  intros Hneg. induction 1 as [|w a _ IH]; [done|].
  destruct a as [req uuid4 oc|session_id| | |d|p].
  - rewrite step_forward.
    destruct (forward_cases req oc)
      as [(e & He)|[(port & Hport & Hmiss)|[(port & Hwf & Hoc)|(port & b & Hwf & ->)]]].
    + by rewrite (forward_bad_port _ _ _ _ _ He).
    + by rewrite (forward_missing _ _ _ _ _ Hport Hmiss).
    + by destruct (forward_launch_failed req uuid4 oc w port Hwf Hoc)
        as (ps & _ & ->).
    + rewrite (forward_launched _ _ _ _ _ Hwf). simpl.
      rewrite decide_False by lia. by rewrite IH.
  - rewrite step_stop.
    by destruct (stop_port_forward_frame session_id w) as (_ & -> & _).
  - done.
  - done.
  - rewrite step_tick. destruct (tick_frame d w) as (_ & -> & _).
    by rewrite IH.
  - done.
Qed.

(** X10: with a negative [FORWARD_TIMEOUT] no timeout thread is ever
    asleep, in any world that the backend can reach, and no passage of time
    removes a session from the registry: sessions then end by a manual stop
    only. *)
Theorem negative_timeout_never_expires w d :
  FORWARD_TIMEOUT E < 0 →
  reachable E w →
  timers w = [] ∧
  active_forwards (step E w (Tick d)) = active_forwards w.
Proof.
  intros Hneg Hreach. pose proof (no_timers_reachable w Hneg Hreach) as Htm.
  split; [done|]. apply map_eq. intros s.
  rewrite step_tick, tick_registry, Htm, filter_nil, fmap_nil.
  rewrite decide_False; [done|apply not_elem_of_nil].
Qed.

(** X12: in every world that the backend can reach, the local port of each
    registered session, and so of each entry that [status] lists, lies
    between 9000 and 9999. *)
Theorem held_ports_stay_in_pool w :
  reachable E w →
  (∀ session_id i, active_forwards w !! session_id = Some i →
                   9000 ≤ local_port i ≤ 9999) ∧
  (∀ e, e ∈ forwards_of (status w).1 → 9000 ≤ View.local_port e ≤ 9999) ∧
  Forall (λ port, 9000 ≤ port ≤ 9999) (held_ports w).
Proof.
  intros Hreach.
  assert (Hreg : ∀ session_id i, active_forwards w !! session_id = Some i →
                                 9000 ≤ local_port i ≤ 9999).
  { intros s i Hi. destruct (registry_ok_reachable w Hreach _ _ Hi) as (_ & ->).
    pose proof (Z.mod_pos_bound (hash E s) 1000). lia. }
  split; [done|]. split.
  - intros e He. apply elem_of_forwards_of_status in He
      as (k & i & Hi & ->). simpl. eauto.
  - unfold held_ports. apply Forall_fmap, Forall_forall. intros [k i] Hin.
    apply elem_of_map_to_list in Hin. simpl. eauto.
Qed.

(** ** Command lines over whole runs *)

Lemma keeps_commands_refl ps : keeps_commands ps ps.
Proof. intros q pr Hq. eauto. Qed.

Lemma keeps_commands_trans ps1 ps2 ps3 :
  keeps_commands ps1 ps2 → keeps_commands ps2 ps3 → keeps_commands ps1 ps3.
Proof.
  intros H12 H23 q pr Hq. destruct (H12 _ _ Hq) as (pr' & Hq' & <-).
  by apply H23.
Qed.

Lemma keeps_commands_app ps ps' : keeps_commands ps (ps ++ ps').
Proof.
  intros q pr Hq. exists pr. split; [|done].
  rewrite lookup_app_l; [done|]. by eapply lookup_lt_Some.
Qed.

Lemma keeps_commands_exited ps p pr :
  ps !! p = Some pr → keeps_commands ps (<[p := exited pr]> ps).
Proof.
  intros Hp q pr' Hq. destruct (decide (p = q)) as [->|Hne].
  - exists (exited pr). rewrite list_lookup_insert_eq
      by by eapply lookup_lt_Some.
    split; [done|]. rewrite Hp in Hq. by injection Hq as <-.
  - exists pr'. by rewrite list_lookup_insert_ne.
Qed.

Lemma keeps_commands_stop session_id w :
  keeps_commands (procs w) (procs (stop_port_forward session_id w).2).
Proof.
  destruct (active_forwards w !! session_id) as [i|] eqn:Hi;
    [|rewrite (stop_port_forward_absent _ _ Hi); apply keeps_commands_refl].
  rewrite (stop_port_forward_present _ _ _ Hi). simpl. unfold stop_procs.
  destruct (process i) as [p|]; [|apply keeps_commands_refl].
  destruct (procs w !! p) as [pr|] eqn:Hp; [|apply keeps_commands_refl].
  destruct (running pr); [|apply keeps_commands_refl].
  by apply keeps_commands_exited.
Qed.

Lemma keeps_commands_fire due : ∀ w,
  keeps_commands (procs w) (procs (fire due w).2).
Proof.
  induction due as [|[t s] due IH]; intros w; [apply keeps_commands_refl|].
  rewrite fire_cons. eapply keeps_commands_trans; [|apply IH].
  rewrite timeout_handler_eq. simpl. apply keeps_commands_stop.
Qed.

Lemma commands_ok_weaken w w' :
  commands_ok w →
  (∀ session_id i, active_forwards w' !! session_id = Some i →
                   active_forwards w !! session_id = Some i) →
  keeps_commands (procs w) (procs w') →
  commands_ok w'.
Proof.
  intros Hok Hsub Hkeep s i p Hi Hp.
  destruct (Hok _ _ _ (Hsub _ _ Hi) Hp) as (pr & Hpr & Hcmd).
  destruct (Hkeep _ _ Hpr) as (pr' & Hpr' & Hcmd'). exists pr'.
  split; [done|congruence].
Qed.

Lemma commands_ok_step w a : commands_ok w → commands_ok (step E w a).
Proof.
  intros Hok. destruct a as [req uuid4 oc|session_id| | |d|p].
  - rewrite step_forward.
    destruct (forward_cases req oc)
      as [(e & He)|[(port & Hport & Hmiss)|[(port & Hwf & Hoc)|(port & b & Hwf & ->)]]].
    + rewrite (forward_bad_port _ _ _ _ _ He).
      eapply commands_ok_weaken; [done|done|apply keeps_commands_refl].
    + rewrite (forward_missing _ _ _ _ _ Hport Hmiss).
      eapply commands_ok_weaken; [done|done|apply keeps_commands_refl].
    + destruct (forward_launch_failed req uuid4 oc w port Hwf Hoc)
        as (ps & _ & ->).
      eapply commands_ok_weaken; [done|done|apply keeps_commands_app].
    + rewrite (forward_launched _ _ _ _ _ Hwf). intros s i p. simpl.
      destruct (decide (uuid4 = s)) as [<-|Hne].
      * rewrite lookup_insert_eq. intros [= <-] [= <-]. simpl.
        eexists. split; [by apply list_lookup_middle|done].
      * rewrite lookup_insert_ne by done. intros Hi Hp.
        destruct (Hok _ _ _ Hi Hp) as (pr & Hpr & Hcmd). exists pr.
        split; [|done]. rewrite lookup_app_l; [done|].
        by eapply lookup_lt_Some.
  - rewrite step_stop. eapply commands_ok_weaken; [done| |].
    + intros s i. rewrite stop_port_forward_registry, lookup_delete_Some. tauto.
    + apply keeps_commands_stop.
  - done.
  - done.
  - rewrite step_tick. eapply commands_ok_weaken; [done| |].
    + intros s i. rewrite tick_registry. by case_decide.
    + rewrite tick_eq.
      match goal with
      | |- context [fire ?due ?w0] => apply (keeps_commands_fire due w0)
      end.
  - eapply commands_ok_weaken; [done|done|]. rewrite step_proc_exit. simpl.
    destruct (procs w !! p) as [pr|] eqn:Hp; [|apply keeps_commands_refl].
    by apply keeps_commands_exited.
Qed.

(** X14: in every world that the backend can reach, the child of each
    registered session is a process of the table, started with the command
    line [kubectl port-forward pod/<pod> <local_port>:<pod_port> -n
    <namespace> --address 0.0.0.0] of the session's own record, whatever
    has happened to the child since. *)
Theorem sessions_run_their_command w session_id i p :
  reachable E w →
  active_forwards w !! session_id = Some i →
  process i = Some p →
  ∃ pr, procs w !! p = Some pr ∧
        cmd pr = ["kubectl"; "port-forward";
                  "pod/" +:+ pod i;
                  str_of_int (local_port i) +:+ ":" +:+ str_of_int (pod_port i);
                  "-n"; namespace i;
                  "--address"; "0.0.0.0"]%string.
Proof.
  intros Hreach. revert session_id i p.
  change (commands_ok w).
  induction Hreach as [|w a _ IH]; [|by apply commands_ok_step].
  intros s i p Hi. simpl in Hi. by rewrite lookup_empty in Hi.
Qed.

(** ** Expiry of sessions that are gone *)

Lemma fire_absent due : ∀ w,
  (∀ session_id, session_id ∈ due.*2 →
                 active_forwards w !! session_id = None) →
  (fire due w).2 =
  {| active_forwards := active_forwards w; procs := procs w;
     signals := signals w; now := now w; timers := timers w;
     log := log w ++ (LogExpired <$> due.*2) |}.
Proof.
  induction due as [|[t s] due IH]; intros w Habsent.
  - simpl. rewrite app_nil_r. by destruct w.
  - rewrite fire_cons, fmap_cons in *. cbn [snd] in *.
    assert (Hs : active_forwards w !! s = None)
      by apply Habsent, list_elem_of_here.
    rewrite IH.
    + rewrite timeout_handler_eq, (stop_port_forward_absent _ _ Hs). simpl.
      rewrite delete_id by done. by rewrite <- (assoc_L (++)).
    + intros s' Hs'. rewrite timeout_handler_eq. simpl.
      rewrite delete_id by done. by apply Habsent, list_elem_of_further.
Qed.

(** X15: when the sessions whose timeout threads wake up are all gone from
    the registry, because they were stopped before, the passage of time
    changes neither the registry nor any child, and sends no signal; each
    thread only writes its expiry record to the log. *)
Theorem expiry_of_stopped_sessions_is_harmless d w :
  (∀ session_id, session_id ∈ due_sessions d w →
                 active_forwards w !! session_id = None) →
  active_forwards (step E w (Tick d)) = active_forwards w ∧
  procs (step E w (Tick d)) = procs w ∧
  signals (step E w (Tick d)) = signals w ∧
  now (step E w (Tick d)) = now w + Z.of_nat d ∧
  log (step E w (Tick d)) = log w ++ (LogExpired <$> due_sessions d w).
Proof.
  intros Habsent. rewrite step_tick, tick_eq.
  rewrite fire_absent; [done|]. intros s Hs. simpl. by apply Habsent.
Qed.

(** X16: in every world that the backend can reach, two distinct sessions
    never hold the same child, although they may hold the same local
    port. *)
Theorem sessions_never_share_a_child w s1 s2 i1 i2 :
  reachable E w →
  s1 ≠ s2 →
  active_forwards w !! s1 = Some i1 →
  active_forwards w !! s2 = Some i2 →
  process i1 ≠ process i2.
Proof.
  intros Hreach Hne H1 H2 Heq.
  destruct (signals_ok_reachable w Hreach) as (Hvalid & Hinj & _).
  destruct (Hvalid _ _ H1) as (p & Hp & _).
  apply Hne. eapply Hinj; [done|done|done|congruence].
Qed.

(** X17: [start_port_forward] returns a handle exactly when the child
    survives the observation window; the handle is then that of a new
    child, which is running and was given the command line built from the
    arguments.  In every case the children that existed keep their state,
    the registry, the signals, the clock and the timeout threads are left
    alone, and the log grows, first by the record of the command line. *)
Theorem start_port_forward_result ns pn pp lp oc w :
  ((start_port_forward ns pn pp lp oc w).1 = None ↔ launch_fails oc = true) ∧
  (∀ p, (start_port_forward ns pn pp lp oc w).1 = Some p →
        p = length (procs w) ∧
        ∃ pr, procs (start_port_forward ns pn pp lp oc w).2 !! p = Some pr ∧
              running pr = true ∧ cmd pr = kubectl_cmd ns pn pp lp) ∧
  quiet_but_procs w (start_port_forward ns pn pp lp oc w).2 ∧
  (∀ q, (q < length (procs w))%nat →
        procs (start_port_forward ns pn pp lp oc w).2 !! q = procs w !! q) ∧
  ∃ rest, log (start_port_forward ns pn pp lp oc w).2
          = log w ++ LogLaunching (kubectl_cmd ns pn pp lp) :: rest.
Proof.
  destruct oc as [reason|diagnostic|b].
  - destruct (start_port_forward_fails ns pn pp lp (PopenRaises reason) w eq_refl)
      as (ps & -> & _). simpl.
    split; [done|]. split; [done|]. split; [done|].
    split; [intros q Hq; by apply lookup_app_l|eauto].
  - destruct (start_port_forward_fails ns pn pp lp (ExitsEarly diagnostic) w eq_refl)
      as (ps & -> & _). simpl.
    split; [done|]. split; [done|]. split; [done|].
    split; [intros q Hq; by apply lookup_app_l|eauto].
  - rewrite start_port_forward_survives. simpl.
    split; [done|]. split.
    { intros p [= <-]. split; [done|]. eexists.
      split; [by apply list_lookup_middle|done]. }
    split; [done|].
    split; [intros q Hq; by apply lookup_app_l|eauto].
Qed.

End Properties.

(** ** Runs on explicit inputs *)

Lemma demo_request_well_formed : well_formed demo_env demo_request 8080.
Proof. by repeat split. Qed.

Lemma demo_world_reachable : reachable demo_env demo_world.
Proof. apply reachable_step, reachable_init. Qed.

Lemma demo_world2_reachable : reachable demo_env demo_world2.
Proof. apply reachable_step, demo_world_reachable. Qed.

(** C1 as stated fails: the identifiers [uuid_a] and [uuid_b] are distinct,
    both sessions are registered in [demo_world2], both children are
    running, and both sessions have been given the local port 9056. *)
Lemma two_sessions_share_a_port :
  ¬ (∀ w s1 s2 i1 i2,
       reachable demo_env w →
       s1 ≠ s2 →
       active_forwards w !! s1 = Some i1 →
       active_forwards w !! s2 = Some i2 →
       process i1 ≠ None → process i2 ≠ None →
       (∀ p, process i1 = Some p → is_running (procs w) p = true) →
       (∀ p, process i2 = Some p → is_running (procs w) p = true) →
       local_port i1 ≠ local_port i2).
Proof.
  intros H.
  apply (H demo_world2 uuid_a uuid_b
           (new_info demo_env demo_request uuid_a 8080 init_world)
           (new_info demo_env demo_request uuid_b 8080 demo_world)).
  - apply demo_world2_reachable.
  - done.
  - by vm_compute.
  - by vm_compute.
  - done.
  - done.
  - by intros p [= <-].
  - by intros p [= <-].
  - by vm_compute.
Qed.

Lemma local_ports_follow_hash_witness :
  local_port (new_info demo_env demo_request uuid_a 8080 init_world) = 9056 ∧
  local_port (new_info demo_env demo_request uuid_b 8080 demo_world) = 9056 ∧
  (9056 ≠ 9056 ↔ demo_hash uuid_a mod 1000 ≠ demo_hash uuid_b mod 1000).
Proof.
  apply (local_ports_follow_hash demo_env demo_world2 uuid_a uuid_b
           (new_info demo_env demo_request uuid_a 8080 init_world)
           (new_info demo_env demo_request uuid_b 8080 demo_world)).
  - apply demo_world2_reachable.
  - done.
  - by vm_compute.
  - by vm_compute.
Defined.

(** C2 as stated fails: the child of a well-formed request exits at once
    with "pod not found" on its error stream, and no text of the response
    contains these words. *)
Lemma early_exit_text_not_in_response :
  ¬ (∀ req uuid4 diagnostic w port,
       well_formed demo_env req port →
       carries (forward demo_env req uuid4 (ExitsEarly diagnostic) w).1
               diagnostic = true).
Proof.
  intros H.
  specialize (H demo_request uuid_a "pod not found"%string init_world 8080
                demo_request_well_formed).
  by vm_compute in H.
Qed.

Lemma forward_early_exit_logged_witness :
  (forward demo_env demo_request uuid_a (ExitsEarly "pod not found") init_world).1
  = error_page demo_env demo_request uuid_a 8080 ∧
  (∀ other,
     (forward demo_env demo_request uuid_a (ExitsEarly other) init_world).1
     = (forward demo_env demo_request uuid_a (ExitsEarly "pod not found")
          init_world).1) ∧
  LogLaunchError "pod not found"
  ∈ log (forward demo_env demo_request uuid_a (ExitsEarly "pod not found")
           init_world).2 ∧
  level_of (LogLaunchError "pod not found") = ERROR ∧
  occurs_in "pod not found"
            (message_of demo_env (LogLaunchError "pod not found")) = true.
Proof.
  apply (forward_early_exit_logged demo_env demo_request uuid_a
           "pod not found" init_world 8080).
  by repeat split.
Defined.

Lemma forward_all_or_nothing_witness :
  (forward demo_env demo_request uuid_b (ExitsEarly "pod not found") demo_world).1.2
  = 500 ∧
  active_forwards
    (forward demo_env demo_request uuid_b (ExitsEarly "pod not found") demo_world).2
  = active_forwards demo_world ∧
  held_ports
    (forward demo_env demo_request uuid_b (ExitsEarly "pod not found") demo_world).2
  = [9056].
Proof.
  destruct (forward_all_or_nothing demo_env demo_request uuid_b
              (ExitsEarly "pod not found") demo_world 8080)
    as (_ & Hcode & Hreg & Hports & _).
  - by repeat split.
  - done.
  - split; [done|]. split; [done|]. rewrite Hports. by vm_compute.
Defined.

(** C4 as stated fails: on the empty registry, the unknown identifier
    "ghost" is answered with the response of a successful stop. *)
Lemma stop_forward_unknown_reported_stopped :
  ¬ (∀ (w : world) (session_id : string),
       active_forwards w !! session_id = None →
       (stop_forward session_id w).1 ≠ stopped_response).
Proof.
  intros H. by apply (H init_world "ghost"%string).
Qed.

Lemma stop_forward_unknown_session_witness :
  stop_forward "ghost" demo_world = (stopped_response, demo_world) ∧
  (stop_forward uuid_a demo_world).1 = stopped_response.
Proof.
  destruct (stop_forward_unknown_session "ghost" demo_world) as [Hghost Hall].
  - by vm_compute.
  - split; [done|apply Hall].
Defined.

Lemma stop_forward_twice_witness :
  active_forwards (stop_forward uuid_a demo_world).2 !! uuid_a = None ∧
  (stop_forward uuid_a (stop_forward uuid_a demo_world).2).2
  = (stop_forward uuid_a demo_world).2 ∧
  count_signal 0 SIGTERM
    (signals (stop_forward uuid_a (stop_forward uuid_a demo_world).2).2) = 1%nat.
Proof.
  destruct (stop_forward_twice uuid_a demo_world
              (new_info demo_env demo_request uuid_a 8080 init_world) 0%nat)
    as (_ & _ & _ & Hgone & Hnoop & _ & Hterm & _).
  - by vm_compute.
  - done.
  - split; [done|]. split; [done|]. rewrite Hterm. by vm_compute.
Defined.

Lemma status_reports_liveness_witness :
  (∃ e, e ∈ forwards_of (status demo_world).1 ∧ View.session_id e = uuid_a) ∧
  (∀ e, e ∈ forwards_of (status demo_world).1 →
        View.session_id e = uuid_a →
        View.active e = true) ∧
  (∀ e, e ∈ forwards_of (status (proc_exit 0 demo_world).2).1 →
        View.session_id e = uuid_a →
        View.active e = false).
Proof.
  destruct (status_reports_liveness demo_world uuid_a
              (new_info demo_env demo_request uuid_a 8080 init_world))
    as (_ & Hlisted & Hlive & Hdead).
  - by vm_compute.
  - split; [done|]. split; [done|]. intros e. by apply Hdead.
Defined.



Lemma forward_port_in_pool_witness :
  ∃ i c,
    active_forwards
      (forward demo_env demo_request uuid_a (Survives false) init_world).2
      !! uuid_a = Some i ∧
    (forward demo_env demo_request uuid_a (Survives false) init_world).1.1
    = Html c ∧
    Tpl.local_port c = local_port i ∧
    9000 ≤ local_port i ≤ 9999.
Proof.
  apply (forward_port_in_pool demo_env demo_request uuid_a (Survives false)
           init_world).
  by vm_compute.
Defined.

Lemma registered_sessions_hold_a_process_witness :
  ∃ p, process (new_info demo_env demo_request uuid_b 8080 demo_world) = Some p ∧
       (p < length (procs demo_world2))%nat.
Proof.
  apply (registered_sessions_hold_a_process demo_env demo_world2 uuid_b).
  - apply demo_world2_reachable.
  - by vm_compute.
Defined.

(** C10 as stated fails: a request without namespace whose port is "abc"
    is answered with HTTP code 500. *)
Lemma missing_namespace_answered_500 :
  ¬ (∀ req uuid4 oc w,
       args_get "namespace" req = None ∨ args_get "pod" req = None →
       (forward demo_env req uuid4 oc w).1.2 = 400).
Proof.
  intros H.
  specialize (H pod_only_request uuid_a (Survives false) init_world
                (or_introl eq_refl)).
  by vm_compute in H.
Qed.

Lemma forward_missing_parameter_witness :
  quiet demo_world
    (forward demo_env pod_only_request uuid_b (Survives false) demo_world).2 ∧
  (forward demo_env pod_only_request uuid_b (Survives false) demo_world).1.2
  = 500.
Proof.
  destruct (forward_missing_parameter demo_env pod_only_request uuid_b
              (Survives false) demo_world) as (Hquiet & _ & Hbad).
  - by left.
  - split; [done|]. by rewrite (Hbad _ eq_refl).
Defined.

(** ** Runs of the further properties *)

Lemma demo_negative_reachable :
  reachable demo_env_negative
    (step demo_env_negative
       (step demo_env_negative init_world
          (Forward demo_request uuid_a (Survives false)))
       (Tick 7)).
Proof. apply reachable_step, reachable_step, reachable_init. Qed.

Lemma stop_port_forward_escalates_witness :
  signals (stop_port_forward uuid_b demo_world2).2 = [(1%nat, SIGTERM); (1%nat, SIGKILL)] ∧
  is_running (procs (stop_port_forward uuid_b demo_world2).2) 1 = false.
Proof.
  destruct (stop_port_forward_escalates uuid_b demo_world2
              (new_info demo_env demo_request uuid_b 8080 demo_world) 1%nat
              {| cmd := kubectl_cmd "demo" "web-0" 8080 9056; running := true;
                 stderr_text := EmptyString; stubborn := true |})
    as (Hsig & _ & Hdead).
  - by vm_compute.
  - done.
  - by vm_compute.
  - split; [by rewrite Hsig|done].
Defined.

Lemma started_session_is_listed_witness :
  ∃ e, e ∈ forwards_of
             (status (forward demo_env plain_request uuid_a (Survives false)
                        init_world).2).1 ∧
       View.session_id e = uuid_a.
Proof.
  destruct (started_session_is_listed demo_env plain_request uuid_a false
              init_world 8080) as (_ & Hlisted & _).
  - by repeat split.
  - done.
Defined.

Lemma start_then_stop_restores_witness :
  active_forwards
    (stop_forward uuid_b
       (forward demo_env demo_request uuid_b (Survives true) demo_world).2).2
  = active_forwards demo_world ∧
  (2, uuid_b)
  ∈ timers (stop_forward uuid_b
              (forward demo_env demo_request uuid_b (Survives true) demo_world).2).2.
Proof.
  destruct (start_then_stop_restores demo_env demo_request uuid_b true
              demo_world 8080) as (Hreg & _ & _ & _ & _ & Htimer & _).
  - by repeat split.
  - by vm_compute.
  - split; [done|]. by apply Htimer.
Defined.

Lemma forward_ignores_credentials_witness :
  (forward demo_env
     {| authorization := Some "Bearer t"%string;
        args := [("token", "x"); ("namespace", "demo"); ("pod", "web-0");
                 ("port", "8080")]%string |}
     uuid_a (Survives false) init_world).1
  = (forward demo_env demo_request uuid_a (Survives false) init_world).1.
Proof.
  destruct (forward_ignores_credentials demo_env demo_request
              {| authorization := Some "Bearer t"%string;
                 args := [("token", "x"); ("namespace", "demo");
                          ("pod", "web-0"); ("port", "8080")]%string |}
              uuid_a (Survives false) init_world) as [Hsame _].
  - by repeat split.
  - done.
Defined.

Lemma forward_popen_raises_witness :
  quiet demo_world
    (forward demo_env demo_request uuid_b
       (PopenRaises "[Errno 2] No such file or directory: 'kubectl'")
       demo_world).2 ∧
  last (log (forward demo_env demo_request uuid_b
               (PopenRaises "[Errno 2] No such file or directory: 'kubectl'")
               demo_world).2)
  = Some (LogLaunchError "[Errno 2] No such file or directory: 'kubectl'").
Proof.
  destruct (forward_popen_raises demo_env demo_request uuid_b
              "[Errno 2] No such file or directory: 'kubectl'" demo_world 8080)
    as (_ & Hquiet & Hlast & _).
  - by repeat split.
  - done.
Defined.

Lemma no_child_is_signalled_twice_witness :
  (count_signal 1 SIGTERM (signals (step demo_env demo_world2 (StopForward uuid_b)))
   ≤ 1)%nat ∧
  (count_signal 1 SIGKILL (signals (step demo_env demo_world2 (StopForward uuid_b)))
   ≤ count_signal 1 SIGTERM
       (signals (step demo_env demo_world2 (StopForward uuid_b))))%nat.
Proof.
  destruct (no_child_is_signalled_twice demo_env
              (step demo_env demo_world2 (StopForward uuid_b)) 1%nat)
    as (Hterm & Hkill & _).
  - apply reachable_step, demo_world2_reachable.
  - done.
Defined.

Lemma every_session_has_an_expiry_witness :
  (2, uuid_b) ∈ timers demo_world2.
Proof.
  destruct (every_session_has_an_expiry demo_env demo_world2 uuid_b
              (new_info demo_env demo_request uuid_b 8080 demo_world))
    as (_ & Hin).
  - done.
  - apply demo_world2_reachable.
  - by vm_compute.
  - by vm_compute.
  - done.
Defined.

Lemma negative_timeout_never_expires_witness :
  timers (step demo_env_negative
            (step demo_env_negative init_world
               (Forward demo_request uuid_a (Survives false)))
            (Tick 7)) = [] ∧
  is_Some (active_forwards
             (step demo_env_negative
                (step demo_env_negative init_world
                   (Forward demo_request uuid_a (Survives false)))
                (Tick 7)) !! uuid_a).
Proof.
  destruct (negative_timeout_never_expires demo_env_negative
              (step demo_env_negative
                 (step demo_env_negative init_world
                    (Forward demo_request uuid_a (Survives false)))
                 (Tick 7)) 0)
    as [Htm _].
  - done.
  - apply demo_negative_reachable.
  - split; [done|]. eexists. reflexivity.
Defined.

Lemma held_ports_stay_in_pool_witness :
  Forall (λ port, 9000 ≤ port ≤ 9999) (held_ports demo_world2).
Proof.
  destruct (held_ports_stay_in_pool demo_env demo_world2) as (_ & _ & Hheld).
  - apply demo_world2_reachable.
  - done.
Defined.

Lemma sessions_run_their_command_witness :
  ∃ pr, procs demo_world2 !! 1%nat = Some pr ∧
        cmd pr = ["kubectl"; "port-forward"; "pod/web-0"; "9056:8080";
                  "-n"; "demo"; "--address"; "0.0.0.0"]%string.
Proof.
  apply (sessions_run_their_command demo_env demo_world2 uuid_b
           (new_info demo_env demo_request uuid_b 8080 demo_world) 1%nat).
  - apply demo_world2_reachable.
  - by vm_compute.
  - done.
Defined.

Lemma expiry_of_stopped_sessions_is_harmless_witness :
  active_forwards (step demo_env demo_all_stopped (Tick 5))
  = active_forwards demo_all_stopped ∧
  signals (step demo_env demo_all_stopped (Tick 5)) = [(0%nat, SIGTERM)] ∧
  log (step demo_env demo_all_stopped (Tick 5))
  = log demo_all_stopped ++ [LogExpired uuid_a].
Proof.
  destruct (expiry_of_stopped_sessions_is_harmless demo_env 5 demo_all_stopped)
    as (Hreg & _ & Hsig & _ & Hlog).
  - intros s Hs. vm_compute in Hs. apply list_elem_of_singleton in Hs as ->.
    by vm_compute.
  - split; [done|]. split; [by rewrite Hsig|]. by rewrite Hlog.
Defined.

Lemma sessions_never_share_a_child_witness :
  process (new_info demo_env demo_request uuid_a 8080 init_world)
  ≠ process (new_info demo_env demo_request uuid_b 8080 demo_world).
Proof.
  apply (sessions_never_share_a_child demo_env demo_world2 uuid_a uuid_b).
  - apply demo_world2_reachable.
  - done.
  - by vm_compute.
  - by vm_compute.
Defined.
